(** * Session, roster and recording coordination of the Chime video-call app

    A shallow embedding of the Express backend (the five HTTP handlers over
    the in-memory table [meetings]) and of the React client (room
    identifiers, joining, the recording buttons, the presence handler, the
    video tiles and the notification queue), with the properties of the
    specification stated and settled against them, and further properties
    of the code after them.

    Conventions.  Request bodies are well typed: [title] and [name] are
    strings, [mode] is a string or missing (any JSON value in
    [api_record_start_any]).  The provider (the AWS Chime
    SDK clients) is abstract: a command sent to it resolves with an object
    or rejects with a message, and what it answers is an input of every
    run.  The table [meetings] is keyed by titles the callers choose, so it
    is modelled with what a plain JavaScript object inherits; rosters are
    keyed by the attendee identifiers the provider mints and are finite
    maps.  An [async] handler is a sequence of atomic stretches of code
    separated by its [await]s.  On the client, time is the reading of
    [Date.now()] handed to the function that takes it. *)

From Stdlib Require Import ZArith Ascii String List Bool Lia.
From stdpp Require Import base option strings gmap list.
Import ListNotations.

Local Open Scope string_scope.
Local Open Scope Z_scope.

Set Warnings "-register-all".

(** ** Provider objects

    The objects of the AWS Chime SDK, restricted to the fields the server
    reads.  They are produced by the provider only, and a command that
    resolves carries its object with these fields. *)

Record Meeting := {
  MeetingId : string;
  MeetingArn : string;
  MediaRegion : string
}.

Record Attendee := {
  AttendeeId : string;
  ExternalUserId : string
}.

Record MediaCapturePipeline := {
  MediaPipelineId : string
}.

(** What an awaited [client.send(command)] settles to: the promise resolves
    with a result or rejects with an error carrying [err.message]. *)
Inductive Outcome (A : Type) : Type :=
| Resolved (a : A)
| Rejected (message : string).
Arguments Resolved {A} a.
Arguments Rejected {A} message.

Definition resolved {A} (o : Outcome A) : bool :=
  match o with Resolved _ => true | Rejected _ => false end.

(** ** JavaScript values of the optional fields *)

(** [pipelineId] is absent ([undefined]) until the first start, a string
    while recording and [null] after a stop. *)
Inductive Slot :=
| Undefined
| Null
| Str (s : string).

(** JavaScript truthiness: [undefined], [null] and the empty string are
    falsy. *)
Definition truthy (v : Slot) : bool :=
  match v with
  | Str s => negb (String.eqb s "")
  | _ => false
  end.

Definition truthy_string (s : string) : bool := negb (String.eqb s "").

(** A template literal [`${v}`] on a string that may be [undefined]. *)
Definition template (v : option string) : string :=
  match v with
  | Some s => s
  | None => "undefined"
  end.

(** [s.split(':')] *)
Fixpoint split_colon (s : string) : list string :=
  match s with
  | EmptyString => [EmptyString]
  | String c rest =>
      if Ascii.eqb c ":"%char then EmptyString :: split_colon rest
      else match split_colon rest with
           | hd :: tl => String c hd :: tl
           | [] => [String c EmptyString]
           end
  end.

(** ** JSON values of a request body

    What [express.json()] hands a handler for a member of the body.  A
    number is given by the text JavaScript prints for it. *)
Inductive JsonValue :=
| JNull
| JBool (b : bool)
| JNumber (text : string)
| JString (s : string)
| JArray (items : list JsonValue)
| JObject (members : list (string * JsonValue)).

(** [String(v)], as a template literal [`${v}`] applies it to a parsed JSON
    value; [None] when the conversion throws.  An array prints its items
    joined by commas, [null] items as nothing.  An object prints through
    the [toString] it inherits, unless it has an own member of that name:
    a parsed member is never a function, [valueOf] gives back the object,
    and the conversion throws a [TypeError]. *)
Fixpoint printed (v : JsonValue) : option string :=
  match v with
  | JNull => Some "null"
  | JBool b => Some (if b then "true" else "false")
  | JNumber text => Some text
  | JString s => Some s
  | JArray items =>
      (fix join (items : list JsonValue) : option string :=
         match items with
         | [] => Some ""
         | item :: rest =>
             let first := match item with
                          | JNull => Some ""
                          | _ => printed item
                          end in
             match rest with
             | [] => first
             | _ :: _ =>
                 match first, join rest with
                 | Some a, Some b => Some (a ++ "," ++ b)
                 | _, _ => None
                 end
             end
         end) items
  | JObject members =>
      if existsb (fun m => String.eqb (fst m) "toString") members then None
      else Some "[object Object]"
  end.

(** The message of the [TypeError] V8 raises when the conversion throws. *)
Definition cannotConvert : string := "Cannot convert object to primitive value".

(** A template literal on a member that may be missing ([undefined]). *)
Definition templateValue (v : option JsonValue) : option string :=
  match v with
  | Some v => printed v
  | None => Some "undefined"
  end.

(** ** The in-memory table [meetings]  *)

(** [attendees]: attendee identifier to display name. *)
Abbreviation Roster := (gmap string string).

Record MeetingData := {
  meeting : Meeting;
  attendees : option Roster;
  pipelineId : Slot;
  recordMode : option JsonValue
}.

Abbreviation Meetings := (gmap string MeetingData).

(** [{ meeting, attendees: {} }] *)
Definition newMeetingData (m : Meeting) : MeetingData :=
  {| meeting := m; attendees := Some ∅; pipelineId := Undefined;
     recordMode := None |}.

(** [meetings] is created by the literal [{}], so reading [meetings[title]]
    falls back to [Object.prototype] when the table has no own property
    [title].  These are the property names every plain object inherits. *)
Definition objectPrototypeKeys : list string :=
  [ "constructor"; "__proto__"; "hasOwnProperty"; "isPrototypeOf";
    "propertyIsEnumerable"; "toLocaleString"; "toString"; "valueOf";
    "__defineGetter__"; "__defineSetter__"; "__lookupGetter__";
    "__lookupSetter__" ].

Definition inherited (title : string) : bool :=
  existsb (String.eqb title) objectPrototypeKeys.

(** The value of [meetings[title]]: an own entry, an inherited built-in
    (a truthy object without [meeting], [attendees] or [pipelineId]), or
    [undefined]. *)
Inductive Property :=
| Own (d : MeetingData)
| Inherited
| Missing.

Definition getMeeting (meetings : Meetings) (title : string) : Property :=
  match meetings !! title with
  | Some d => Own d
  | None => if inherited title then Inherited else Missing
  end.

(** ** Responses *)

Inductive Json :=
| MeetingBody (meeting : option Meeting)
| RosterBody (roster : Roster)
| JoinBody (Meeting : Meeting) (Attendee : Attendee) (Roster : Roster)
| RecordingBody (message : string) (pipelineId : string)
| MessageBody (message : string)
| ErrorBody (error : string).

Record Response := {
  status : Z;
  body : Json
}.

Definition json (b : Json) : Response := {| status := 200; body := b |}.
Definition error (code : Z) (msg : string) : Response :=
  {| status := code; body := ErrorBody msg |}.

(** The message of the [TypeError] V8 raises on [undefined.prop]. *)
Definition cannotRead (prop : string) : string :=
  "Cannot read properties of undefined (reading '" ++ prop ++ "')".

(** ** Commands sent to the provider *)

Inductive State := Enabled | Disabled.

Record StreamConfiguration := {
  streamState : State;
  MuxType : option string
}.

Record CompositedVideoConfiguration := {
  compositedState : State;
  Layout : string;
  Resolution : string;
  ContentShareLayout : string
}.

Record ArtifactsConfiguration := {
  Audio : string;
  Video : StreamConfiguration;
  Content : StreamConfiguration;
  CompositedVideo : option CompositedVideoConfiguration
}.

Record CapturePipelineInput := {
  SourceType : string;
  SourceArn : string;
  SinkType : string;
  SinkArn : string;
  ArtifactsConfig : ArtifactsConfiguration
}.

(** The fresh [uuid()] tokens of the commands are left out. *)
Inductive Command :=
| CreateMeetingCommand (ExternalMeetingId : string)
| CreateAttendeeCommand (MeetingId : string)
| CreateMediaCapturePipelineCommand (input : CapturePipelineInput)
| DeleteMediaCapturePipelineCommand (MediaPipelineId : string).

(** ** Handlers

    An [async] handler runs atomically up to its next [await]; there it
    hands a command to the provider and is resumed later, on the table as
    it is then, with the outcome.  A [Task] is what remains of a handler:
    the response it has sent, or the command it awaits with the code that
    follows the [await]. *)
Inductive Task :=
| Respond (r : Response)
| AwaitCreateMeeting (ExternalMeetingId : string)
    (k : Outcome Meeting -> Meetings -> Meetings * Task)
| AwaitCreateAttendee (MeetingId : string)
    (k : Outcome Attendee -> Meetings -> Meetings * Task)
| AwaitCreatePipeline (input : CapturePipelineInput)
    (k : Outcome MediaCapturePipeline -> Meetings -> Meetings * Task)
| AwaitDeletePipeline (MediaPipelineId : string)
    (k : Outcome unit -> Meetings -> Meetings * Task).

Abbreviation Handler := (Meetings -> Meetings * Task).

(** [app.post('/api/create')] *)
Definition api_create (title : string) : Handler := fun meetings =>
  let respond (meetings : Meetings) :=
    match getMeeting meetings title with
    | Own d => (meetings, Respond (json (MeetingBody (Some (meeting d)))))
    | Inherited => (meetings, Respond (json (MeetingBody None)))
    | Missing => (meetings, Respond (error 500 (cannotRead "meeting")))
    end in
  match getMeeting meetings title with
  | Missing =>
      (meetings,
       AwaitCreateMeeting title (fun meetingResult meetings =>
         match meetingResult with
         | Resolved m => respond (<[title := newMeetingData m]> meetings)
         | Rejected message => (meetings, Respond (error 500 message))
         end))
  | _ => respond meetings
  end.

(** [app.get('/api/roster/:title')] *)
Definition api_roster (title : string) : Handler := fun meetings =>
  match getMeeting meetings title with
  | Missing => (meetings, Respond (error 404 "Meeting not found"))
  | Own meetingData =>
      (meetings, Respond (json (RosterBody (default ∅ (attendees meetingData)))))
  | Inherited => (meetings, Respond (json (RosterBody ∅)))
  end.

Definition withAttendees (d : MeetingData) (r : Roster) : MeetingData :=
  {| meeting := meeting d; attendees := Some r; pipelineId := pipelineId d;
     recordMode := recordMode d |}.

(** [app.post('/api/join')].  The second half, from [CreateAttendeeCommand]
    on, reads [meeting.MeetingId] first; [meeting] is [undefined] when
    [meetings[title]] was an inherited built-in. *)
Definition api_join (title name : string) : Handler := fun meetings =>
  let attend (meeting : option Meeting) (meetings : Meetings) :=
    match meeting with
    | None => (meetings, Respond (error 500 (cannotRead "MeetingId")))
    | Some meeting =>
        (meetings,
         AwaitCreateAttendee (MeetingId meeting) (fun attendeeResult meetings =>
           match attendeeResult with
           | Rejected message => (meetings, Respond (error 500 message))
           | Resolved attendee =>
               let attendeeId := AttendeeId attendee in
               match getMeeting meetings title with
               | Own d =>
                   let roster := <[attendeeId := name]> (default ∅ (attendees d)) in
                   (<[title := withAttendees d roster]> meetings,
                    Respond (json (JoinBody meeting attendee roster)))
               | _ =>
                   (* not reached: the title had an own entry when the
                      command was sent, and entries are never removed;
                      for [Missing] this is the error of the read *)
                   (meetings, Respond (error 500 (cannotRead "attendees")))
               end
           end))
    end in
  match getMeeting meetings title with
  | Missing =>
      (meetings,
       AwaitCreateMeeting title (fun meetingResult meetings =>
         match meetingResult with
         | Resolved meeting =>
             attend (Some meeting) (<[title := newMeetingData meeting]> meetings)
         | Rejected message => (meetings, Respond (error 500 message))
         end))
  | Own d => attend (Some (meeting d)) meetings
  | Inherited => attend None meetings
  end.

(** The two artifact configurations of [/api/record/start]. *)
Definition gridArtifacts : ArtifactsConfiguration :=
  {| Audio := "AudioOnly";
     Video := {| streamState := Disabled; MuxType := None |};
     Content := {| streamState := Disabled; MuxType := None |};
     CompositedVideo :=
       Some {| compositedState := Enabled; Layout := "GridView";
               Resolution := "HD"; ContentShareLayout := "PresenterOnly" |} |}.

Definition rawArtifacts : ArtifactsConfiguration :=
  {| Audio := "AudioOnly";
     Video := {| streamState := Enabled; MuxType := Some "VideoOnly" |};
     Content := {| streamState := Enabled; MuxType := Some "ContentOnly" |};
     CompositedVideo := None |}.

(** [mode === 'grid'], on a [mode] that is a string or missing. *)
Definition isGrid (mode : option string) : bool :=
  match mode with
  | Some s => String.eqb s "grid"
  | None => false
  end.

Definition artifactsConfig (mode : option string) : ArtifactsConfiguration :=
  if isGrid mode then gridArtifacts else rawArtifacts.

(** [process.env.AWS_ACCOUNT_ID || MeetingArn.split(':')[4]] *)
Definition accountId (AWS_ACCOUNT_ID : option string) (arn : string)
  : option string :=
  match AWS_ACCOUNT_ID with
  | Some a => if truthy_string a then Some a else split_colon arn !! 4%nat
  | None => split_colon arn !! 4%nat
  end.

Definition capturePipelineInput (AWS_ACCOUNT_ID mode : option string)
    (m : Meeting) : CapturePipelineInput :=
  {| SourceType := "ChimeSdkMeeting";
     SourceArn := "arn:aws:chime::" ++ template (accountId AWS_ACCOUNT_ID (MeetingArn m))
                    ++ ":meeting:" ++ MeetingId m;
     SinkType := "S3Bucket";
     SinkArn := "arn:aws:s3:::meet-recordings-rm";
     ArtifactsConfig := artifactsConfig mode |}.

Definition withRecording (d : MeetingData) (p : Slot) (mode : option string)
  : MeetingData :=
  {| meeting := meeting d; attendees := attendees d; pipelineId := p;
     recordMode := JString <$> mode |}.

Definition withPipelineId (d : MeetingData) (p : Slot) : MeetingData :=
  {| meeting := meeting d; attendees := attendees d; pipelineId := p;
     recordMode := recordMode d |}.

(** [app.post('/api/record/start')] *)
Definition api_record_start (AWS_ACCOUNT_ID : option string)
    (title : string) (mode : option string) : Handler := fun meetings =>
  match getMeeting meetings title with
  | Missing => (meetings, Respond (error 404 "Meeting not found"))
  | Inherited =>
      (* [meetingData.pipelineId] is undefined; inside [try],
         [meetingData.meeting] is undefined and the first read of it throws *)
      match AWS_ACCOUNT_ID with
      | Some a =>
          if truthy_string a
          then (meetings, Respond (error 500 (cannotRead "MeetingId")))
          else (meetings, Respond (error 500 (cannotRead "MeetingArn")))
      | None => (meetings, Respond (error 500 (cannotRead "MeetingArn")))
      end
  | Own meetingData =>
      if truthy (pipelineId meetingData)
      then (meetings, Respond (error 400 "Already recording"))
      else
        (meetings,
         AwaitCreatePipeline
           (capturePipelineInput AWS_ACCOUNT_ID mode (meeting meetingData))
           (fun result meetings =>
              match result with
              | Rejected message => (meetings, Respond (error 500 message))
              | Resolved pipeline =>
                  match getMeeting meetings title with
                  | Own d =>
                      let id := MediaPipelineId pipeline in
                      (<[title := withRecording d (Str id) mode]> meetings,
                       Respond (json (RecordingBody
                         ("Recording started (" ++ template mode ++ ")") id)))
                  | _ =>
                      (* not reached, as in [api_join] *)
                      (meetings,
                       Respond (error 500
                         "Cannot set properties of undefined (setting 'pipelineId')"))
                  end
              end))
  end.

(** *** [/api/record/start] on any [mode]

    The handlers above take the [mode] of the body as a string or missing.
    [req.body.mode] can be any JSON value; this is the same handler on
    every one of them. *)

(** [mode === 'grid'] *)
Definition isGridValue (mode : option JsonValue) : bool :=
  match mode with
  | Some (JString s) => String.eqb s "grid"
  | _ => false
  end.

Definition capturePipelineInputFor (AWS_ACCOUNT_ID : option string)
    (mode : option JsonValue) (m : Meeting) : CapturePipelineInput :=
  {| SourceType := "ChimeSdkMeeting";
     SourceArn := "arn:aws:chime::" ++ template (accountId AWS_ACCOUNT_ID (MeetingArn m))
                    ++ ":meeting:" ++ MeetingId m;
     SinkType := "S3Bucket";
     SinkArn := "arn:aws:s3:::meet-recordings-rm";
     ArtifactsConfig := if isGridValue mode then gridArtifacts else rawArtifacts |}.

Definition withRecordingValue (d : MeetingData) (p : Slot)
    (mode : option JsonValue) : MeetingData :=
  {| meeting := meeting d; attendees := attendees d; pipelineId := p;
     recordMode := mode |}.

(** [app.post('/api/record/start')].  The message of the response is built
    after [pipelineId] and [recordMode] are stored; when the conversion of
    [mode] throws there, the [catch] answers. *)
Definition api_record_start_any (AWS_ACCOUNT_ID : option string)
    (title : string) (mode : option JsonValue) : Handler := fun meetings =>
  match getMeeting meetings title with
  | Missing => (meetings, Respond (error 404 "Meeting not found"))
  | Inherited =>
      match AWS_ACCOUNT_ID with
      | Some a =>
          if truthy_string a
          then (meetings, Respond (error 500 (cannotRead "MeetingId")))
          else (meetings, Respond (error 500 (cannotRead "MeetingArn")))
      | None => (meetings, Respond (error 500 (cannotRead "MeetingArn")))
      end
  | Own meetingData =>
      if truthy (pipelineId meetingData)
      then (meetings, Respond (error 400 "Already recording"))
      else
        (meetings,
         AwaitCreatePipeline
           (capturePipelineInputFor AWS_ACCOUNT_ID mode (meeting meetingData))
           (fun result meetings =>
              match result with
              | Rejected message => (meetings, Respond (error 500 message))
              | Resolved pipeline =>
                  match getMeeting meetings title with
                  | Own d =>
                      let id := MediaPipelineId pipeline in
                      let meetings :=
                        <[title := withRecordingValue d (Str id) mode]> meetings in
                      match templateValue mode with
                      | Some text =>
                          (meetings,
                           Respond (json (RecordingBody
                             ("Recording started (" ++ text ++ ")") id)))
                      | None => (meetings, Respond (error 500 cannotConvert))
                      end
                  | _ =>
                      (* not reached, as in [api_join] *)
                      (meetings,
                       Respond (error 500
                         "Cannot set properties of undefined (setting 'pipelineId')"))
                  end
              end))
  end.

(** [app.post('/api/record/stop')] *)
Definition api_record_stop (title : string) : Handler := fun meetings =>
  match getMeeting meetings title with
  | Own meetingData =>
      match pipelineId meetingData with
      | Str id =>
          if truthy (Str id)
          then
            (meetings,
             AwaitDeletePipeline id (fun result meetings =>
               match result with
               | Rejected message => (meetings, Respond (error 500 message))
               | Resolved _ =>
                   match getMeeting meetings title with
                   | Own d =>
                       (<[title := withPipelineId d Null]> meetings,
                        Respond (json (MessageBody "Recording stopped")))
                   | _ =>
                       (* not reached, as in [api_join] *)
                       (meetings,
                        Respond (error 500
                          "Cannot set properties of undefined (setting 'pipelineId')"))
                   end
               end))
          else (meetings, Respond (error 400 "Not recording"))
      | _ => (meetings, Respond (error 400 "Not recording"))
      end
  | _ => (meetings, Respond (error 400 "Not recording"))
  end.

(** ** Sequential execution *)

(** The provider as seen by one request: what each command settles to. *)
Record Provider := {
  createMeeting : string -> Outcome Meeting;
  createAttendee : string -> Outcome Attendee;
  createMediaCapturePipeline : CapturePipelineInput -> Outcome MediaCapturePipeline;
  deleteMediaCapturePipeline : string -> Outcome unit
}.

(** A command together with whether the provider carried it out. *)
Record Exchange := {
  sent : Command;
  succeeded : bool
}.

Record Result := {
  table : Meetings;
  response : Response;
  exchanges : list Exchange
}.

(** Results and exchanges in short. *)
Definition said (meetings : Meetings) (r : Response) (log : list Exchange)
  : Result :=
  {| table := meetings; response := r; exchanges := log |}.

Definition did (c : Command) (b : bool) : Exchange :=
  {| sent := c; succeeded := b |}.

Definition logged (c : Command) (ok : bool) (r : Result) : Result :=
  {| table := table r; response := response r;
     exchanges := {| sent := c; succeeded := ok |} :: exchanges r |}.

(** Runs the rest of a handler to its response, no other request in
    between. *)
Fixpoint complete (P : Provider) (t : Task) (meetings : Meetings) : Result :=
  match t with
  | Respond r => {| table := meetings; response := r; exchanges := [] |}
  | AwaitCreateMeeting x k =>
      let o := createMeeting P x in
      match k o meetings with
      | (meetings', t') =>
          logged (CreateMeetingCommand x) (resolved o) (complete P t' meetings')
      end
  | AwaitCreateAttendee x k =>
      let o := createAttendee P x in
      match k o meetings with
      | (meetings', t') =>
          logged (CreateAttendeeCommand x) (resolved o) (complete P t' meetings')
      end
  | AwaitCreatePipeline x k =>
      let o := createMediaCapturePipeline P x in
      match k o meetings with
      | (meetings', t') =>
          logged (CreateMediaCapturePipelineCommand x) (resolved o)
            (complete P t' meetings')
      end
  | AwaitDeletePipeline x k =>
      let o := deleteMediaCapturePipeline P x in
      match k o meetings with
      | (meetings', t') =>
          logged (DeleteMediaCapturePipelineCommand x) (resolved o)
            (complete P t' meetings')
      end
  end.

Definition serve (P : Provider) (h : Handler) (meetings : Meetings) : Result :=
  match h meetings with
  | (meetings', t) => complete P t meetings'
  end.

(** ** Requests and sequential traces *)

Inductive Request :=
| PostCreate (title : string)
| GetRoster (title : string)
| PostJoin (title name : string)
| PostRecordStart (title : string) (mode : option string)
| PostRecordStop (title : string).

Definition route (AWS_ACCOUNT_ID : option string) (r : Request) : Handler :=
  match r with
  | PostCreate title => api_create title
  | GetRoster title => api_roster title
  | PostJoin title name => api_join title name
  | PostRecordStart title mode => api_record_start AWS_ACCOUNT_ID title mode
  | PostRecordStop title => api_record_stop title
  end.

(** A request with what the provider answers while it is served. *)
Abbreviation Call := (Request * Provider)%type.

(** The sequential request model: every request is served to its response
    before the next one starts.  Returns the table reached and, oldest
    first, what each request did. *)
Fixpoint serveAll (env : option string) (calls : list Call)
    (meetings : Meetings) : Meetings * list Result :=
  match calls with
  | [] => (meetings, [])
  | (r, P) :: rest =>
      let res := serve P (route env r) meetings in
      match serveAll env rest (table res) with
      | (final, results) => (final, res :: results)
      end
  end.

(** ** Interleaved execution

    Node runs one handler at a time, but only up to its next [await];
    while a command is in flight other requests are served.  The server
    keeps the suspended handlers; a step is the arrival of a request or the
    settling of one in-flight command. *)

Record Server := {
  store : Meetings;
  inflight : list (Request * Task);
  answered : list Response;
  traffic : list (Request * Exchange)
}.

Definition boot : Server :=
  {| store := ∅; inflight := []; answered := []; traffic := [] |}.

Inductive Event :=
| Arrives (r : Request)
| Settles (i : nat) (P : Provider).

(** The command a suspended handler waits for, whether the provider
    carried it out, and the handler's next stretch of code. *)
Definition resume (P : Provider) (t : Task) (meetings : Meetings)
  : option (Exchange * (Meetings * Task)) :=
  match t with
  | Respond _ => None
  | AwaitCreateMeeting x k =>
      let o := createMeeting P x in
      Some ({| sent := CreateMeetingCommand x; succeeded := resolved o |},
            k o meetings)
  | AwaitCreateAttendee x k =>
      let o := createAttendee P x in
      Some ({| sent := CreateAttendeeCommand x; succeeded := resolved o |},
            k o meetings)
  | AwaitCreatePipeline x k =>
      let o := createMediaCapturePipeline P x in
      Some ({| sent := CreateMediaCapturePipelineCommand x;
               succeeded := resolved o |},
            k o meetings)
  | AwaitDeletePipeline x k =>
      let o := deleteMediaCapturePipeline P x in
      Some ({| sent := DeleteMediaCapturePipelineCommand x;
               succeeded := resolved o |},
            k o meetings)
  end.

(** After a stretch of code of the handler of request [r]: a handler that
    responded is finished, one that awaits is suspended behind the
    others. *)
Definition settle (r : Request) (others : list (Request * Task))
    (log : list (Request * Exchange)) (sv : Server) (next : Meetings * Task)
  : Server :=
  match next with
  | (meetings, Respond resp) =>
      {| store := meetings; inflight := others;
         answered := answered sv ++ [resp]; traffic := log |}
  | (meetings, t) =>
      {| store := meetings; inflight := others ++ [(r, t)];
         answered := answered sv; traffic := log |}
  end.

Definition step (env : option string) (sv : Server) (e : Event) : Server :=
  match e with
  | Arrives r =>
      settle r (inflight sv) (traffic sv) sv (route env r (store sv))
  | Settles i P =>
      match inflight sv !! i with
      | Some (r, t) =>
          match resume P t (store sv) with
          | Some (x, next) =>
              settle r (delete i (inflight sv)) (traffic sv ++ [(r, x)]) sv next
          | None => sv
          end
      | None => sv
      end
  end.

Definition schedule (env : option string) (events : list Event) : Server :=
  fold_left (step env) events boot.

(** A handler that responds after at most [n] commands, whatever the
    provider answers and whatever the table holds when it is resumed. *)
Inductive within : nat -> Task -> Prop :=
| within_respond n r : within n (Respond r)
| within_create_meeting n x k :
    (forall o m, within n (snd (k o m))) ->
    within (S n) (AwaitCreateMeeting x k)
| within_create_attendee n x k :
    (forall o m, within n (snd (k o m))) ->
    within (S n) (AwaitCreateAttendee x k)
| within_create_pipeline n x k :
    (forall o m, within n (snd (k o m))) ->
    within (S n) (AwaitCreatePipeline x k)
| within_delete_pipeline n x k :
    (forall o m, within n (snd (k o m))) ->
    within (S n) (AwaitDeletePipeline x k).

(** Own entries never carry a name that the table also inherits: an entry
    is only ever written for a title found missing or found own. *)
Definition wellKeyed (meetings : Meetings) : Prop :=
  forall title, is_Some (meetings !! title) -> inherited title = false.

(** From one table to a later one: no entry is removed, and the table stays
    well keyed. *)
Definition grows (before after : Meetings) : Prop :=
  (forall title, is_Some (before !! title) -> is_Some (after !! title))
  /\ (wellKeyed before -> wellKeyed after).

(** A suspended handler under which the table grows however it is
    resumed. *)
Inductive tidy : Task -> Prop :=
| tidy_respond r : tidy (Respond r)
| tidy_create_meeting x k :
    (forall o m, grows m (fst (k o m)) /\ tidy (snd (k o m))) ->
    tidy (AwaitCreateMeeting x k)
| tidy_create_attendee x k :
    (forall o m, grows m (fst (k o m)) /\ tidy (snd (k o m))) ->
    tidy (AwaitCreateAttendee x k)
| tidy_create_pipeline x k :
    (forall o m, grows m (fst (k o m)) /\ tidy (snd (k o m))) ->
    tidy (AwaitCreatePipeline x k)
| tidy_delete_pipeline x k :
    (forall o m, grows m (fst (k o m)) /\ tidy (snd (k o m))) ->
    tidy (AwaitDeletePipeline x k).

(** The sequential request model inside the interleaved one: every request
    is followed at once by the settling of its commands (a handler awaits
    at most twice; settling with nothing in flight does nothing). *)
Definition sequentially (calls : list Call) : list Event :=
  flat_map (fun c => [Arrives (fst c); Settles 0 (snd c); Settles 0 (snd c)]) calls.

(** Provider-side meeting creations and capture pipelines. *)
Definition createdMeeting (title : string) (x : Exchange) : bool :=
  match sent x with
  | CreateMeetingCommand t => String.eqb t title && succeeded x
  | _ => false
  end.

Definition meetingsCreated (title : string) (log : list Exchange) : nat :=
  length (List.filter (createdMeeting title) log).

Definition createdPipeline (x : Exchange) : bool :=
  match sent x with
  | CreateMediaCapturePipelineCommand _ => succeeded x
  | _ => false
  end.

Definition deletedPipeline (x : Exchange) : bool :=
  match sent x with
  | DeleteMediaCapturePipelineCommand _ => succeeded x
  | _ => false
  end.

(** ** The React client (App.jsx) *)

Module App.

(** *** Notification queue *)

Record Notification := {
  id : Z;
  message : string;
  type : string
}.

(** A pending [setTimeout] callback: when it is due and the [id] its
    closure holds. *)
Record Timeout := {
  due : Z;
  target : Z
}.

Record Toasts := {
  notifications : list Notification;
  timeouts : list Timeout
}.

Definition noToasts : Toasts := {| notifications := []; timeouts := [] |}.

(** [showNotification(message, type)] at clock reading [now = Date.now()]
    (milliseconds). *)
Definition showNotification (now : Z) (message type : string) (st : Toasts)
  : Toasts :=
  let id := now in
  {| notifications :=
       notifications st ++ [{| id := id; message := message; type := type |}];
     timeouts := timeouts st ++ [{| due := now + 3000; target := id |}] |}.

(** [prev.filter(n => n.id !== id)] *)
Definition dismiss (id : Z) (prev : list Notification) : list Notification :=
  List.filter (fun n => negb (App.id n =? id)) prev.

(** The oldest pending timeout fires (all delays are equal, so timeouts
    fire in the order they were set). *)
Definition fire (st : Toasts) : Toasts :=
  match timeouts st with
  | [] => st
  | t :: rest =>
      {| notifications := dismiss (target t) (notifications st);
         timeouts := rest |}
  end.

(** The entry and the timeout that a push at a clock reading makes. *)
Definition entryOf (p : Z * (string * string)) : Notification :=
  {| id := fst p; message := fst (snd p); type := snd (snd p) |}.

Definition timeoutOf (p : Z * (string * string)) : Timeout :=
  {| due := fst p + 3000; target := fst p |}.

(** Several notifications, each pushed at its own clock reading. *)
Definition showAll (pushes : list (Z * (string * string))) (st : Toasts)
  : Toasts :=
  fold_left (fun st p => showNotification (fst p) (fst (snd p)) (snd (snd p)) st)
    pushes st.

(** *** Presence handler *)

(** What [fetch('/api/roster/...')] followed by [response.json()] gives:
    a rejection, or a body whose [roster] member may be missing. *)
Inductive Fetched :=
| FetchFailed
| FetchedData (roster : option Roster).

(** [name || 'Someone'] *)
Definition orSomeone (name : option string) : string :=
  match name with
  | Some s => if truthy_string s then s else "Someone"
  | None => "Someone"
  end.

(** The calls to [showNotification] and the roster state after the event. *)
Record Handled := {
  shown : list (string * string);
  roster : Roster;
  failed : bool
}.

(** [attendeeIdPresenceHandler(attendeeId, present, ...)].  [attendeeRoster]
    is the snapshot the closure captured when the session was set up;
    [prev] is the roster state when the update is applied; [fetched] is
    what the roster request returns (used when [present]). *)
Definition attendeeIdPresenceHandler (myAttendeeId : string)
    (attendeeRoster : Roster) (attendeeId : string) (present : bool)
    (fetched : Fetched) (prev : Roster) : Handled :=
  if present then
    match fetched with
    | FetchedData (Some roster) =>
        let attendeeName := orSomeone (roster !! attendeeId) in
        {| shown :=
             if String.eqb attendeeId myAttendeeId then []
             else [(attendeeName ++ " joined", "join")];
           roster := roster; failed := false |}
    | FetchedData None => {| shown := []; roster := prev; failed := false |}
    | FetchFailed => {| shown := []; roster := prev; failed := true |}
    end
  else
    let leavingName := orSomeone (attendeeRoster !! attendeeId) in
    {| shown := [(leavingName ++ " left", "leave")];
       roster := delete attendeeId prev; failed := false |}.

End App.

(** ** Reading a sequential history *)

(** Whether a recording is active for [title]: the guard of both recording
    handlers. *)
Definition recording (meetings : Meetings) (title : string) : bool :=
  match meetings !! title with
  | Some d => truthy (pipelineId d)
  | None => false
  end.

Definition ok (res : Result) : bool := status (response res) =? 200.

(** What the response to a request tells about the recording of [title]:
    a successful start turns it on, a successful stop turns it off. *)
Definition told (title : string) (r : Request) (res : Result) (before : bool)
  : bool :=
  match r with
  | PostRecordStart t _ => if String.eqb t title && ok res then true else before
  | PostRecordStop t => if String.eqb t title && ok res then false else before
  | _ => before
  end.

(** "A start succeeded and no stop has succeeded since." *)
Fixpoint activeAfter (title : string) (calls : list Call)
    (results : list Result) (before : bool) : bool :=
  match calls, results with
  | (r, _) :: calls, res :: results =>
      activeAfter title calls results (told title r res before)
  | _, _ => before
  end.

(** The provider's capture pipelines: a command carried out creates one or
    deletes one. *)
Definition pipelineEffect (x : Exchange) : Z :=
  if createdPipeline x then 1 else if deletedPipeline x then -1 else 0.

Definition recordingRequest (title : string) (r : Request) : bool :=
  match r with
  | PostRecordStart t _ | PostRecordStop t => String.eqb t title
  | _ => false
  end.

(** Capture pipelines the provider holds after the given traffic on behalf
    of recording requests for [title]: those it created minus those it
    deleted. *)
Fixpoint pipelinesHeld (title : string) (log : list (Request * Exchange)) : Z :=
  match log with
  | [] => 0
  | (r, x) :: log =>
      (if recordingRequest title r then pipelineEffect x else 0)
      + pipelinesHeld title log
  end.

(** The traffic of a sequential history, every exchange with the request
    it belongs to. *)
Fixpoint tagged (calls : list Call) (results : list Result)
  : list (Request * Exchange) :=
  match calls, results with
  | (r, _) :: calls, res :: results =>
      map (pair r) (exchanges res) ++ tagged calls results
  | _, _ => []
  end.

(** Whether the table has an own entry for [title]. *)
Definition stored (meetings : Meetings) (title : string) : bool :=
  match meetings !! title with
  | Some _ => true
  | None => false
  end.

(** Pipeline identifiers handed out by the provider are not empty. *)
Definition mintsPipelineIds (P : Provider) : Prop :=
  forall x p, createMediaCapturePipeline P x = Resolved p ->
              MediaPipelineId p <> "".

(** The roster [/api/roster/:title] serves for an own entry. *)
Definition rosterOf (meetings : Meetings) (title : string) : Roster :=
  match meetings !! title with
  | Some d => default ∅ (attendees d)
  | None => ∅
  end.

(** The attendee a request brought into [title], with the name it gave:
    read off the response of a successful join. *)
Definition joinedAs (title : string) (r : Request) (res : Result)
  : option (string * string) :=
  match r, body (response res) with
  | PostJoin t name, JoinBody _ a _ =>
      if String.eqb t title then Some (AttendeeId a, name) else None
  | _, _ => None
  end.

(** The successful joins to [title] of a sequential history, oldest
    first. *)
Fixpoint entrants (title : string) (calls : list Call) (results : list Result)
  : list (string * string) :=
  match calls, results with
  | (r, _) :: calls, res :: results =>
      match joinedAs title r res with
      | Some e => e :: entrants title calls results
      | None => entrants title calls results
      end
  | _, _ => []
  end.

Definition enter (roster : Roster) (e : string * string) : Roster :=
  <[fst e := snd e]> roster.

(** ** What the specification asks for, where the code departs from it *)

(** The mutual exclusion the specification asks for, read on a run of the
    server: the provider never creates a second meeting for a title, and
    never holds two capture pipelines for it at once. *)
Definition exclusiveCreation (s : Server) (title : string) : Prop :=
  (meetingsCreated title (map snd (traffic s)) <= 1)%nat.

Definition exclusiveRecording (s : Server) (title : string) : Prop :=
  pipelinesHeld title (traffic s) <= 1.

(** The fan-out the specification describes for a presence event with
    [present = true]: a [Joined] notification for every attendee of the
    fetched snapshot that the local snapshot lacks, the local client
    excepted. *)
Definition announcesNewcomers (myAttendeeId : string) (snapshot fetched : Roster)
    (h : App.Handled) : Prop :=
  forall attendeeId name,
    fetched !! attendeeId = Some name ->
    snapshot !! attendeeId = None ->
    attendeeId <> myAttendeeId ->
    (App.orSomeone (Some name) ++ " joined", "join") ∈ App.shown h.

(** ** Reading a history title by title *)

(** The title a request names: [req.body.title], or [req.params.title] of
    the roster route. *)
Definition requestTitle (r : Request) : string :=
  match r with
  | PostCreate title | GetRoster title | PostJoin title _
  | PostRecordStart title _ | PostRecordStop title => title
  end.

Definition about (title : string) (c : Call) : bool :=
  String.eqb (requestTitle (fst c)) title.

(** What the caller and the provider see of a request served: the response
    and the commands. *)
Definition seen (res : Result) : Response * list Exchange :=
  (response res, exchanges res).

(** What was seen of the requests of a history that name [title]. *)
Fixpoint seenAbout (title : string) (calls : list Call) (results : list Result)
  : list (Response * list Exchange) :=
  match calls, results with
  | c :: calls, res :: results =>
      if about title c then seen res :: seenAbout title calls results
      else seenAbout title calls results
  | _, _ => []
  end.

(** The Meeting the table stores for [title]. *)
Definition meetingOf (meetings : Meetings) (title : string) : option Meeting :=
  meeting <$> meetings !! title.

(** The Meeting a response of [/api/create] or [/api/join] carries. *)
Definition meetingSent (res : Result) : option Meeting :=
  match body (response res) with
  | MeetingBody (Some m) => Some m
  | JoinBody m _ _ => Some m
  | _ => None
  end.

(** The Meetings handed to the callers of [title] in a history. *)
Fixpoint meetingsSent (title : string) (calls : list Call) (results : list Result)
  : list Meeting :=
  match calls, results with
  | c :: calls, res :: results =>
      match (if about title c then meetingSent res else None) with
      | Some m => m :: meetingsSent title calls results
      | None => meetingsSent title calls results
      end
  | _, _ => []
  end.

(** An entry as a later table has it: the same Meeting, and every attendee
    of its roster still on the roster. *)
Definition extends (d d' : MeetingData) : Prop :=
  meeting d' = meeting d
  /\ forall attendeeId,
       is_Some (default ∅ (attendees d) !! attendeeId) ->
       is_Some (default ∅ (attendees d') !! attendeeId).

Definition lasting (before after : Meetings) : Prop :=
  forall title d, before !! title = Some d ->
    exists d', after !! title = Some d' /\ extends d d'.

(** ** Reading a run of the server *)

Definition arrival (e : Event) : bool :=
  match e with
  | Arrives _ => true
  | Settles _ _ => false
  end.

(** The requests that arrived in a run. *)
Definition arrivals (events : list Event) : nat :=
  length (List.filter arrival events).

Definition suspended (t : Task) : bool :=
  match t with
  | Respond _ => false
  | _ => true
  end.

(** The handlers in flight await a command, and handler number [i]
    responds after at most [ns !! i] commands, two at most. *)
Definition owes (ns : list nat) (tasks : list (Request * Task)) : Prop :=
  Forall2 (fun n p => within n (snd p) /\ suspended (snd p) = true /\ (n <= 2)%nat)
    ns tasks.

(** ** The rest of App.jsx: the page and its handlers *)

Module Page.

(** *** Room identifiers *)

Definition chars : string := "ABCDEFGHIJKLMNOPQRSTUVWXYZ0123456789".

(** [s.charAt(i)]: the empty string when [i] is out of range. *)
Definition charAt (s : string) (i : nat) : string :=
  match String.get i s with
  | Some c => String c EmptyString
  | None => ""
  end.

(** [generateRoomId()].  [random i] is the value of
    [Math.floor(Math.random() * chars.length)] in iteration [i]. *)
Definition generateRoomId (random : nat -> nat) : string :=
  fold_left (fun result i => result ++ charAt chars (random i)) (seq 0 8) "".

(** *** State of the component *)

(** What [initializeChime] leaves in [sessionRef]: the session of
    [joinInfo], with the [roomId] and the [attendeeRoster] that the
    presence handler it subscribed closes over. *)
Record Session := {
  joinInfo : Meeting * Attendee;
  heldRoomId : string;
  heldRoster : Roster
}.

(** The state hooks the handlers below read or set, and [sessionRef]. *)
Record Ui := {
  inCall : bool;
  name : string;
  roomId : string;
  password : string;
  isLoading : bool;
  isMuted : bool;
  isCamOff : bool;
  isRecording : bool;
  attendeeRoster : Roster;
  remoteAttendeeId : option string;
  sessionRef : option Session
}.

(** The component as first rendered, with the values typed in the form. *)
Definition initial (name roomId password : string) : Ui :=
  {| inCall := false; name := name; roomId := roomId; password := password;
     isLoading := false; isMuted := false; isCamOff := false;
     isRecording := false; attendeeRoster := ∅; remoteAttendeeId := None;
     sessionRef := None |}.

Definition setInCall (v : bool) (st : Ui) : Ui :=
  {| inCall := v; name := name st; roomId := roomId st; password := password st;
     isLoading := isLoading st; isMuted := isMuted st; isCamOff := isCamOff st;
     isRecording := isRecording st; attendeeRoster := attendeeRoster st;
     remoteAttendeeId := remoteAttendeeId st; sessionRef := sessionRef st |}.

Definition setIsLoading (v : bool) (st : Ui) : Ui :=
  {| inCall := inCall st; name := name st; roomId := roomId st;
     password := password st; isLoading := v; isMuted := isMuted st;
     isCamOff := isCamOff st; isRecording := isRecording st;
     attendeeRoster := attendeeRoster st;
     remoteAttendeeId := remoteAttendeeId st; sessionRef := sessionRef st |}.

Definition setIsMuted (v : bool) (st : Ui) : Ui :=
  {| inCall := inCall st; name := name st; roomId := roomId st;
     password := password st; isLoading := isLoading st; isMuted := v;
     isCamOff := isCamOff st; isRecording := isRecording st;
     attendeeRoster := attendeeRoster st;
     remoteAttendeeId := remoteAttendeeId st; sessionRef := sessionRef st |}.

Definition setIsCamOff (v : bool) (st : Ui) : Ui :=
  {| inCall := inCall st; name := name st; roomId := roomId st;
     password := password st; isLoading := isLoading st; isMuted := isMuted st;
     isCamOff := v; isRecording := isRecording st;
     attendeeRoster := attendeeRoster st;
     remoteAttendeeId := remoteAttendeeId st; sessionRef := sessionRef st |}.

Definition setIsRecording (v : bool) (st : Ui) : Ui :=
  {| inCall := inCall st; name := name st; roomId := roomId st;
     password := password st; isLoading := isLoading st; isMuted := isMuted st;
     isCamOff := isCamOff st; isRecording := v;
     attendeeRoster := attendeeRoster st;
     remoteAttendeeId := remoteAttendeeId st; sessionRef := sessionRef st |}.

Definition setAttendeeRoster (v : Roster) (st : Ui) : Ui :=
  {| inCall := inCall st; name := name st; roomId := roomId st;
     password := password st; isLoading := isLoading st; isMuted := isMuted st;
     isCamOff := isCamOff st; isRecording := isRecording st;
     attendeeRoster := v;
     remoteAttendeeId := remoteAttendeeId st; sessionRef := sessionRef st |}.

Definition setRemoteAttendeeId (v : option string) (st : Ui) : Ui :=
  {| inCall := inCall st; name := name st; roomId := roomId st;
     password := password st; isLoading := isLoading st; isMuted := isMuted st;
     isCamOff := isCamOff st; isRecording := isRecording st;
     attendeeRoster := attendeeRoster st;
     remoteAttendeeId := v; sessionRef := sessionRef st |}.

Definition setSessionRef (v : option Session) (st : Ui) : Ui :=
  {| inCall := inCall st; name := name st; roomId := roomId st;
     password := password st; isLoading := isLoading st; isMuted := isMuted st;
     isCamOff := isCamOff st; isRecording := isRecording st;
     attendeeRoster := attendeeRoster st;
     remoteAttendeeId := remoteAttendeeId st; sessionRef := v |}.

(** *** Requests and what comes back *)

(** What [await fetch(...)] followed by [await response.json()] gives: a
    response with its parsed body, or an error caught with its message
    (the request failed, or the body was not JSON). *)
Inductive Reply :=
| NoReply (message : string)
| Replied (r : Response).

(** [response.ok] *)
Definition responseOk (r : Response) : bool :=
  (200 <=? status r) && (status r <=? 299).

(** [data.message], [data.error], [data.roster], [data.Roster] and
    [data.JoinInfo]: [undefined] on a body without the member. *)
Definition dataMessage (data : Json) : option string :=
  match data with
  | RecordingBody message _ | MessageBody message => Some message
  | _ => None
  end.

Definition dataError (data : Json) : option string :=
  match data with
  | ErrorBody e => Some e
  | _ => None
  end.

Definition dataRoster (data : Json) : option Roster :=
  match data with
  | RosterBody roster => Some roster
  | _ => None
  end.

Definition dataJoinRoster (data : Json) : option Roster :=
  match data with
  | JoinBody _ _ roster => Some roster
  | _ => None
  end.

Definition dataJoinInfo (data : Json) : option (Meeting * Attendee) :=
  match data with
  | JoinBody m a _ => Some (m, a)
  | _ => None
  end.

(** [v || fallback] on a string that may be [undefined]. *)
Definition orElse (v : option string) (fallback : string) : string :=
  match v with
  | Some s => if truthy_string s then s else fallback
  | None => fallback
  end.

(** *** Recording button *)

(** The request of [toggleRecording(mode)]: the endpoint by the flag of the
    render, the body [{ title: roomId, mode }]. *)
Definition toggleRequest (st : Ui) (mode : option string) : Request :=
  if isRecording st then PostRecordStop (roomId st)
  else PostRecordStart (roomId st) mode.

Record Toggled := {
  toggled : Ui;
  alerted : string
}.

(** [toggleRecording] from the request's reply on.  [st] is the state of
    the render whose button was pressed, [now] the state when the reply is
    handled; [alert(undefined)] shows the text [undefined]. *)
Definition toggleRecording (st : Ui) (reply : Reply) (now : Ui) : Toggled :=
  match reply with
  | NoReply _ => {| toggled := now; alerted := "Recording action failed" |}
  | Replied r =>
      if responseOk r
      then {| toggled := setIsRecording (negb (isRecording st)) now;
              alerted := template (dataMessage (body r)) |}
      else {| toggled := now; alerted := template (dataError (body r)) |}
  end.

(** [leaveCall()] *)
Definition leaveCall (st : Ui) : Ui :=
  setIsRecording false
    (setIsCamOff false (setIsMuted false (setInCall false (setSessionRef None st)))).

(** *** Joining *)

Definition joinRequest (st : Ui) : Request := PostJoin (roomId st) (name st).

(** After [joinMeeting]: the state, the alerts shown, and the argument of
    the [initializeChime] call it scheduled, if it scheduled one. *)
Record Join := {
  page : Ui;
  alerts : list string;
  scheduled : option (option (Meeting * Attendee))
}.

(** [joinMeeting(e)].  With a wrong password no request is sent and
    [reply] is not looked at. *)
Definition joinMeeting (st : Ui) (reply : Reply) : Join :=
  if negb (String.eqb (password st) "9762")
  then {| page := st; alerts := ["Incorrect password. Please try again."];
          scheduled := None |}
  else
    let st := setIsLoading true st in
    match reply with
    | NoReply message =>
        {| page := setIsLoading false st;
           alerts := ["Failed to join: " ++ message]; scheduled := None |}
    | Replied r =>
        if responseOk r
        then
          let st := match dataJoinRoster (body r) with
                    | Some roster => setAttendeeRoster roster st
                    | None => st
                    end in
          {| page := setInCall true st; alerts := [];
             scheduled := Some (dataJoinInfo (body r)) |}
        else
          {| page := setIsLoading false st;
             alerts := ["Failed to join: "
                          ++ orElse (dataError (body r)) "Server error"];
             scheduled := None |}
    end.

Definition cameraMicError (message : string) : string :=
  "Camera/Mic Error: " ++ message
    ++ ". If on mobile, ensure you are using HTTPS or localhost.".

(** [initializeChime(joinInfo)], a closure of the render [render] in which
    [joinMeeting] was called, run on the state [now].  [devices] is what
    the device set-up after the subscriptions settles to.  Returns the
    state and the alerts shown. *)
Definition initializeChime (render : Ui) (joinInfo : option (Meeting * Attendee))
    (devices : Outcome unit) (now : Ui) : Ui * list string :=
  match joinInfo with
  | None =>
      (setIsLoading false (setInCall false now),
       [cameraMicError (cannotRead "Meeting")])
  | Some info =>
      let session := {| joinInfo := info; heldRoomId := roomId render;
                        heldRoster := attendeeRoster render |} in
      let now := setSessionRef (Some session) now in
      match devices with
      | Resolved _ => (setIsLoading false now, [])
      | Rejected message =>
          (setIsLoading false (setInCall false now), [cameraMicError message])
      end
  end.

(** *** Presence events of a session *)

(** The request behind [fetch(`/api/roster/${encodeURIComponent(roomId)}`)].
    The encoded room is one path segment that the route decodes back; an
    empty segment matches no route, and the segments [.] and [..] are
    resolved away when the address is parsed. *)
Definition rosterRequest (roomId : string) : option Request :=
  if String.eqb roomId "" || String.eqb roomId "." || String.eqb roomId ".."
  then None
  else Some (GetRoster roomId).

Definition rosterFetched (reply : Reply) : App.Fetched :=
  match reply with
  | NoReply _ => App.FetchFailed
  | Replied r => App.FetchedData (dataRoster (body r))
  end.

(** The presence handler as the session [s] subscribed it; [fetched] is
    what its roster request for [heldRoomId s] gives. *)
Definition presence (s : Session) (attendeeId : string) (present : bool)
    (fetched : App.Fetched) (prev : Roster) : App.Handled :=
  App.attendeeIdPresenceHandler (AttendeeId (snd (joinInfo s))) (heldRoster s)
    attendeeId present fetched prev.

(** *** Video tiles *)

Inductive VideoElement := LocalVideo | RemoteVideo.

Record VideoTileState := {
  tileId : Z;
  boundAttendeeId : option string;
  localTile : bool
}.

(** The tiles bound to a video element (the session's), and the page. *)
Record Stage := {
  bound : gmap Z VideoElement;
  ui : Ui
}.

(** [videoTileDidUpdate(tileState)]; [localVideoRef] and [remoteVideoRef]
    tell whether the element of the ref is mounted. *)
Definition videoTileDidUpdate (localVideoRef remoteVideoRef : bool)
    (tileState : VideoTileState) (s : Stage) : Stage :=
  match boundAttendeeId tileState with
  | None => s
  | Some attendeeId =>
      if negb (truthy_string attendeeId) then s
      else if localTile tileState then
        if localVideoRef
        then {| bound := <[tileId tileState := LocalVideo]> (bound s); ui := ui s |}
        else s
      else
        if remoteVideoRef
        then {| bound := <[tileId tileState := RemoteVideo]> (bound s);
                ui := setRemoteAttendeeId (Some attendeeId) (ui s) |}
        else s
  end.

(** [videoTileDidRemove(tileId)] *)
Definition videoTileDidRemove (tileId : Z) (s : Stage) : Stage :=
  {| bound := delete tileId (bound s);
     ui := setRemoteAttendeeId None (ui s) |}.

(** The label under the remote video. *)
Definition remoteLabel (st : Ui) : string :=
  match remoteAttendeeId st with
  | Some attendeeId =>
      if truthy_string attendeeId
      then orElse (attendeeRoster st !! attendeeId) "Remote Participant"
      else "Waiting for participant..."
  | None => "Waiting for participant..."
  end.

(** *** Notification queue over time *)

Inductive Tick :=
| Shows (now : Z) (message type : string)
| Expires.

Definition tick (st : App.Toasts) (e : Tick) : App.Toasts :=
  match e with
  | Shows now message type => App.showNotification now message type st
  | Expires => App.fire st
  end.

Definition pushed (e : Tick) : list (Z * (string * string)) :=
  match e with
  | Shows now message type => [(now, (message, type))]
  | Expires => []
  end.

(** The timeouts that fired among [events], [pending] of them being set
    before. *)
Fixpoint expired (events : list Tick) (pending : nat) : nat :=
  match events with
  | [] => 0
  | Shows _ _ _ :: events => expired events (S pending)
  | Expires :: events =>
      match pending with
      | O => expired events O
      | S pending => S (expired events pending)
      end
  end.

End Page.

(** ** The page against the server *)

(** A press of a recording button, served to its response before anything
    else happens: the table and the page after it, with the alert shown. *)
Definition pressed (env : option string) (P : Provider) (mode : option string)
    (w : Meetings * Page.Ui) : Meetings * Page.Toggled :=
  let res := serve P (route env (Page.toggleRequest (snd w) mode)) (fst w) in
  (table res, Page.toggleRecording (snd w) (Page.Replied (response res)) (snd w)).

(** The same press when the reply may not reach the page: the request is
    served all the same, and on a lost reply the page handles the error of
    [fetch] instead. *)
Definition pressedOver (env : option string) (P : Provider)
    (mode : option string) (delivered : bool) (lost : string)
    (w : Meetings * Page.Ui) : Meetings * Page.Toggled :=
  let res := serve P (route env (Page.toggleRequest (snd w) mode)) (fst w) in
  (table res,
   Page.toggleRecording (snd w)
     (if delivered then Page.Replied (response res) else Page.NoReply lost)
     (snd w)).

Definition press (env : option string) (w : Meetings * Page.Ui)
    (p : Provider * option string) : Meetings * Page.Ui :=
  (fst (pressed env (fst p) (snd p) w),
   Page.toggled (snd (pressed env (fst p) (snd p) w))).

(** Whether the page's recording flag tells what the server holds for its
    room. *)
Definition inSync (w : Meetings * Page.Ui) : Prop :=
  Page.isRecording (snd w) = recording (fst w) (Page.roomId (snd w)).

(** The page leaves the call; the server is not told. *)
Definition left (w : Meetings * Page.Ui) : Meetings * Page.Ui :=
  (fst w, Page.leaveCall (snd w)).

(** The join form is submitted: with the right password the request is
    served to its response, and the [initializeChime] call that
    [joinMeeting] scheduled runs next.  Returns the table, the page and the
    alerts shown. *)
Definition submit (env : option string) (P : Provider) (devices : Outcome unit)
    (w : Meetings * Page.Ui) : Meetings * Page.Ui * list string :=
  let st := snd w in
  let res := serve P (route env (Page.joinRequest st)) (fst w) in
  let j := Page.joinMeeting st (Page.Replied (response res)) in
  let meetings := if String.eqb (Page.password st) "9762" then table res else fst w in
  match Page.scheduled j with
  | Some info =>
      match Page.initializeChime st info devices (Page.page j) with
      | (st', shown) => (meetings, st', (Page.alerts j ++ shown)%list)
      end
  | None => (meetings, Page.page j, Page.alerts j)
  end.

(** What the page gets when it fetches the roster of [roomId] from the
    server. *)
Definition fetched (P : Provider) (meetings : Meetings) (roomId : string)
  : App.Fetched :=
  match Page.rosterRequest roomId with
  | Some r =>
      Page.rosterFetched (Page.Replied (response (serve P (route None r) meetings)))
  | None => App.FetchFailed
  end.

(** ** Fields of an ARN *)

(** A string without a colon. *)
Fixpoint colonFree (s : string) : bool :=
  match s with
  | EmptyString => true
  | String c rest => negb (Ascii.eqb c ":"%char) && colonFree rest
  end.

(** ** Sample data *)

Definition sampleMeeting (serial : string) : Meeting :=
  {| MeetingId := "mtg-" ++ serial;
     MeetingArn := "arn:aws:chime:us-east-1:123456789012:meeting/mtg-" ++ serial;
     MediaRegion := "us-east-1" |}.

Definition sampleAttendee (serial : string) : Attendee :=
  {| AttendeeId := "att-" ++ serial; ExternalUserId := "ext-" ++ serial |}.

(** A provider that carries out every command and mints identifiers
    ending in [serial]. *)
Definition chime (serial : string) : Provider :=
  {| createMeeting := fun _ => Resolved (sampleMeeting serial);
     createAttendee := fun _ => Resolved (sampleAttendee serial);
     createMediaCapturePipeline := fun _ =>
       Resolved {| MediaPipelineId := "pipe-" ++ serial |};
     deleteMediaCapturePipeline := fun _ => Resolved tt |}.

(** A provider that rejects every command. *)
Definition outage : Provider :=
  {| createMeeting := fun _ => Rejected "Service unavailable";
     createAttendee := fun _ => Rejected "Service unavailable";
     createMediaCapturePipeline := fun _ => Rejected "Service unavailable";
     deleteMediaCapturePipeline := fun _ => Rejected "Service unavailable" |}.

Definition room1 : Meetings :=
  {[ "ROOM1" := newMeetingData (sampleMeeting "1") ]}.

Definition room1Recording : Meetings :=
  {[ "ROOM1" := withRecording (newMeetingData (sampleMeeting "1"))
                  (Str "pipe-1") (Some "grid") ]}.

(** Two first callers of the same title, both arriving before the
    provider has answered the first. *)
Definition creationRace : list Event :=
  [ Arrives (PostCreate "ROOM1");
    Arrives (PostJoin "ROOM1" "Alice");
    Settles 0 (chime "1");
    Settles 0 (chime "2");
    Settles 0 (chime "2") ].

(** Two starts for one meeting, the second arriving while the first
    awaits the provider. *)
Definition recordingRace : list Event :=
  [ Arrives (PostCreate "ROOM1");
    Settles 0 (chime "1");
    Arrives (PostRecordStart "ROOM1" (Some "grid"));
    Arrives (PostRecordStart "ROOM1" (Some "grid"));
    Settles 0 (chime "1");
    Settles 0 (chime "2") ].

(** The scenario of the specification: a room is created, Alice and Bob
    join, the roster is read, a grid recording is started twice and
    stopped twice. *)
Definition room1Scenario : list Call :=
  [ (PostCreate "ROOM1", chime "0");
    (PostJoin "ROOM1" "Alice", chime "1");
    (PostJoin "ROOM1" "Bob", chime "2");
    (GetRoster "ROOM1", outage);
    (PostRecordStart "ROOM1" (Some "grid"), chime "3");
    (PostRecordStart "ROOM1" (Some "grid"), chime "4");
    (PostRecordStop "ROOM1", chime "5");
    (PostRecordStop "ROOM1", chime "6") ].

(** A short sequential history: the room is created and a grid recording
    started. *)
Definition recordingHistory : list Call :=
  [ (PostCreate "ROOM1", chime "1");
    (PostJoin "ROOM1" "Alice", chime "1");
    (PostRecordStart "ROOM1" (Some "grid"), chime "1") ].

Definition rosterOfOne : Roster := {[ "att-me" := "Me" ]}.

Definition rosterOfThree : Roster :=
  {[ "att-me" := "Me"; "att-bob" := "Bob"; "att-carol" := "Carol" ]}.

(** Two notifications pushed at the same clock reading. *)
Definition twoToastsAtOnce : App.Toasts :=
  App.showNotification 1000 "Bob left" "leave"
    (App.showNotification 1000 "Alice left" "leave" App.noToasts).


(** ROOM1 with Alice on its roster. *)
Definition room1WithAlice : Meetings :=
  {[ "ROOM1" := withAttendees (newMeetingData (sampleMeeting "1"))
                  {[ "att-1" := "Alice" ]} ]}.

(** A remote tile bound to Bob, and a page in a call with Bob on its
    roster. *)
Definition bobsTile : Page.VideoTileState :=
  {| Page.tileId := 2; Page.boundAttendeeId := Some "att-bob";
     Page.localTile := false |}.

Definition stageOfThree : Page.Stage :=
  {| Page.bound := {[ 1 := Page.LocalVideo ]};
     Page.ui := Page.setAttendeeRoster rosterOfThree
                  (Page.setInCall true (Page.initial "Me" "ROOM1" "9762")) |}.

(** Three notifications; the first expires before the third is shown. *)
Definition threeToasts : list Page.Tick :=
  [ Page.Shows 1000 "Alice joined" "join";
    Page.Shows 1500 "Bob joined" "join";
    Page.Expires;
    Page.Shows 4200 "Bob left" "leave" ].

(** Bob's session in ROOM1, set up on a freshly loaded page. *)
Definition bobsSession : Page.Session :=
  {| Page.joinInfo := (sampleMeeting "1", sampleAttendee "2");
     Page.heldRoomId := "ROOM1"; Page.heldRoster := ∅ |}.

(** A mode without a string conversion: [{"toString": 1}]. *)
Definition unprintableMode : JsonValue := JObject [("toString", JNumber "1")].

(** ** Shorthands of the proofs *)

(** The table after a successful join: the entry [d] of the title with the
    attendee entered in its roster. *)
Definition joined (meetings : Meetings) title name (d : MeetingData)
    (a : Attendee) : Meetings :=
  <[title := withAttendees d (<[AttendeeId a := name]> (default ∅ (attendees d)))]>
    meetings.

(** Evaluates what a request added to the provider's pipelines. *)
Ltac simplify_held :=
  cbn [said table exchanges map pipelinesHeld recordingRequest pipelineEffect
       createdPipeline deletedPipeline did sent succeeded].

(** One settling step of the only handler in flight, awaiting a command
    that settles to [o] on table [m]; the rest is the induction hypothesis
    [IH] of [settles_complete]. *)
Ltac settle_one IH Hk o m :=
  cbn [settle repeat fold_left app]; unfold step at 2;
  cbn [inflight store traffic lookup list_lookup resume delete list_delete complete];
  specialize (Hk o m);
  let m' := fresh "m'" in
  let t' := fresh "t'" in
  destruct (_ o m) as [m' t'];
  cbn [snd] in Hk;
  rewrite (IH t' m' _ _ _ Hk) by reflexivity;
  cbn [logged table response exchanges map];
  rewrite <- app_assoc; reflexivity.

(** * Properties *)

(** ** Basic facts about the table *)

Lemma getMeeting_own (meetings : Meetings) title d :
  meetings !! title = Some d -> getMeeting meetings title = Own d.
Proof. unfold getMeeting. intros ->. reflexivity. Qed.

Lemma getMeeting_insert (meetings : Meetings) title d :
  getMeeting (<[title := d]> meetings) title = Own d.
Proof. apply getMeeting_own, lookup_insert_eq. Qed.

Lemma getMeeting_Own_inv (meetings : Meetings) title d :
  getMeeting meetings title = Own d -> meetings !! title = Some d.
Proof.
  unfold getMeeting. destruct (meetings !! title) as [d'|].
  - congruence.
  - destruct (inherited title); discriminate.
Qed.

Lemma getMeeting_Inherited (meetings : Meetings) title :
  getMeeting meetings title = Inherited -> inherited title = true.
Proof.
  unfold getMeeting. destruct (meetings !! title); [discriminate|].
  destruct (inherited title); [reflexivity|discriminate].
Qed.

Lemma isGrid_spec mode : isGrid mode = true <-> mode = Some "grid".
Proof.
  destruct mode as [s|]; simpl.
  - rewrite String.eqb_eq. split; congruence.
  - split; discriminate.
Qed.

(** ** What each handler does, case by case *)

Lemma getMeeting_cases (meetings : Meetings) title :
  (exists d, meetings !! title = Some d /\ getMeeting meetings title = Own d)
  \/ (meetings !! title = None /\ inherited title = true
      /\ getMeeting meetings title = Inherited)
  \/ (meetings !! title = None /\ inherited title = false
      /\ getMeeting meetings title = Missing).
Proof.
  unfold getMeeting. destruct (meetings !! title) as [d|]; [eauto|].
  destruct (inherited title); auto.
Qed.

Lemma serve_create_cases (meetings : Meetings) title P :
  let res := serve P (api_create title) meetings in
  (exists d, meetings !! title = Some d
     /\ res = said meetings (json (MeetingBody (Some (meeting d)))) [])
  \/ (meetings !! title = None /\ inherited title = true
      /\ res = said meetings (json (MeetingBody None)) [])
  \/ (meetings !! title = None /\ inherited title = false
      /\ ((exists m, createMeeting P title = Resolved m
             /\ res = said (<[title := newMeetingData m]> meetings)
                        (json (MeetingBody (Some m)))
                        [did (CreateMeetingCommand title) true])
          \/ (exists msg, createMeeting P title = Rejected msg
                /\ res = said meetings (error 500 msg)
                           [did (CreateMeetingCommand title) false]))).
Proof.
  unfold serve, api_create. cbv zeta.
  destruct (getMeeting_cases meetings title)
    as [(d & Hd & Hget)|[(Hd & Hi & Hget)|(Hd & Hi & Hget)]]; rewrite !Hget.
  - left. exists d. auto.
  - right; left. auto.
  - right; right. split; [exact Hd|]. split; [exact Hi|].
    cbn [complete]. destruct (createMeeting P title) as [m|msg].
    + left. exists m. rewrite getMeeting_insert. auto.
    + right. exists msg. auto.
Qed.

Lemma serve_roster_cases (meetings : Meetings) title P :
  let res := serve P (api_roster title) meetings in
  table res = meetings /\ exchanges res = []
  /\ ((exists d, meetings !! title = Some d
         /\ response res = json (RosterBody (default ∅ (attendees d))))
      \/ (meetings !! title = None /\ inherited title = true
          /\ response res = json (RosterBody ∅))
      \/ (meetings !! title = None /\ inherited title = false
          /\ response res = error 404 "Meeting not found")).
Proof.
  unfold serve, api_roster.
  destruct (getMeeting_cases meetings title)
    as [(d & Hd & ->)|[(Hd & Hi & ->)|(Hd & Hi & ->)]]; cbn; eauto 10.
Qed.

Lemma serve_join_cases (meetings : Meetings) title name P :
  let res := serve P (api_join title name) meetings in
  (exists d, meetings !! title = Some d
     /\ ((exists a, createAttendee P (MeetingId (meeting d)) = Resolved a
            /\ res = said (joined meetings title name d a)
                       (json (JoinBody (meeting d) a
                          (<[AttendeeId a := name]> (default ∅ (attendees d)))))
                       [did (CreateAttendeeCommand (MeetingId (meeting d))) true])
         \/ (exists msg, createAttendee P (MeetingId (meeting d)) = Rejected msg
               /\ res = said meetings (error 500 msg)
                          [did (CreateAttendeeCommand (MeetingId (meeting d))) false])))
  \/ (meetings !! title = None /\ inherited title = true
      /\ res = said meetings (error 500 (cannotRead "MeetingId")) [])
  \/ (meetings !! title = None /\ inherited title = false
      /\ ((exists msg, createMeeting P title = Rejected msg
             /\ res = said meetings (error 500 msg)
                        [did (CreateMeetingCommand title) false])
          \/ (exists m, createMeeting P title = Resolved m
                /\ ((exists a, createAttendee P (MeetingId m) = Resolved a
                       /\ res = said (joined (<[title := newMeetingData m]> meetings)
                                        title name (newMeetingData m) a)
                                  (json (JoinBody m a {[AttendeeId a := name]}))
                                  [did (CreateMeetingCommand title) true;
                                   did (CreateAttendeeCommand (MeetingId m)) true])
                    \/ (exists msg, createAttendee P (MeetingId m) = Rejected msg
                          /\ res = said (<[title := newMeetingData m]> meetings)
                                     (error 500 msg)
                                     [did (CreateMeetingCommand title) true;
                                      did (CreateAttendeeCommand (MeetingId m)) false]))))).
Proof.
  unfold serve, api_join.
  destruct (getMeeting_cases meetings title)
    as [(d & Hd & Hget)|[(Hd & Hi & ->)|(Hd & Hi & ->)]].
  - left. exists d. split; [exact Hd|]. rewrite Hget. cbn [complete].
    destruct (createAttendee P (MeetingId (meeting d))) as [a|msg].
    + left. exists a. rewrite Hget. auto.
    + right. exists msg. auto.
  - right; left. auto.
  - right; right. split; [exact Hd|]. split; [exact Hi|].
    cbn [complete]. destruct (createMeeting P title) as [m|msg].
    + right. exists m. split; [reflexivity|]. cbn [complete].
      destruct (createAttendee P (MeetingId m)) as [a|msg].
      * left. exists a. rewrite getMeeting_insert. auto.
      * right. exists msg. auto.
    + left. exists msg. auto.
Qed.

Lemma serve_start_cases env (meetings : Meetings) title mode P :
  let res := serve P (api_record_start env title mode) meetings in
  (exists d, meetings !! title = Some d
     /\ ((truthy (pipelineId d) = true
          /\ res = said meetings (error 400 "Already recording") [])
         \/ (truthy (pipelineId d) = false
             /\ let input := capturePipelineInput env mode (meeting d) in
                (exists p, createMediaCapturePipeline P input = Resolved p
                   /\ res = said (<[title := withRecording d (Str (MediaPipelineId p)) mode]> meetings)
                              (json (RecordingBody
                                 ("Recording started (" ++ template mode ++ ")")
                                 (MediaPipelineId p)))
                              [did (CreateMediaCapturePipelineCommand input) true])
                \/ (exists msg, createMediaCapturePipeline P input = Rejected msg
                      /\ res = said meetings (error 500 msg)
                                 [did (CreateMediaCapturePipelineCommand input) false]))))
  \/ (meetings !! title = None /\ inherited title = true
      /\ exists prop, res = said meetings (error 500 (cannotRead prop)) [])
  \/ (meetings !! title = None /\ inherited title = false
      /\ res = said meetings (error 404 "Meeting not found") []).
Proof.
  unfold serve, api_record_start.
  destruct (getMeeting_cases meetings title)
    as [(d & Hd & Hget)|[(Hd & Hi & ->)|(Hd & Hi & ->)]].
  - left. exists d. split; [exact Hd|]. rewrite Hget.
    destruct (truthy (pipelineId d)); [left; auto|right].
    split; [reflexivity|]. cbn [complete].
    destruct (createMediaCapturePipeline P _) as [p|msg].
    + left. exists p. rewrite Hget. auto.
    + right. exists msg. auto.
  - right; left. split; [exact Hd|]. split; [exact Hi|].
    destruct env as [a|]; [destruct (truthy_string a)|]; eauto.
  - right; right. auto.
Qed.

Lemma serve_stop_cases (meetings : Meetings) title P :
  let res := serve P (api_record_stop title) meetings in
  (recording meetings title = false
   /\ res = said meetings (error 400 "Not recording") [])
  \/ (exists d id, meetings !! title = Some d /\ pipelineId d = Str id
        /\ recording meetings title = true
        /\ ((deleteMediaCapturePipeline P id = Resolved tt
             /\ res = said (<[title := withPipelineId d Null]> meetings)
                        (json (MessageBody "Recording stopped"))
                        [did (DeleteMediaCapturePipelineCommand id) true])
            \/ (exists msg, deleteMediaCapturePipeline P id = Rejected msg
                  /\ res = said meetings (error 500 msg)
                             [did (DeleteMediaCapturePipelineCommand id) false]))).
Proof.
  unfold serve, api_record_stop, recording.
  destruct (getMeeting_cases meetings title)
    as [(d & Hd & Hget)|[(Hd & Hi & ->)|(Hd & Hi & ->)]]; rewrite Hd.
  - rewrite Hget. destruct (pipelineId d) as [| |id] eqn:Hp; [left; auto..|].
    destruct (truthy (Str id)) eqn:Ht; [|left; auto].
    right. exists d, id. split; [reflexivity|]. split; [exact Hp|].
    split; [reflexivity|]. cbn [complete].
    destruct (deleteMediaCapturePipeline P id) as [[]|msg].
    + left. rewrite Hget. auto.
    + right. exists msg. auto.
  - left; auto.
  - left; auto.
Qed.

(** ** The scenarios of the specification, run *)

Example room1_scenario :
  map response (snd (serveAll None room1Scenario ∅)) =
    [ json (MeetingBody (Some (sampleMeeting "0")));
      json (JoinBody (sampleMeeting "0") (sampleAttendee "1")
              {[ "att-1" := "Alice" ]});
      json (JoinBody (sampleMeeting "0") (sampleAttendee "2")
              {[ "att-1" := "Alice"; "att-2" := "Bob" ]});
      json (RosterBody {[ "att-1" := "Alice"; "att-2" := "Bob" ]});
      json (RecordingBody "Recording started (grid)" "pipe-3");
      error 400 "Already recording";
      json (MessageBody "Recording stopped");
      error 400 "Not recording" ].
Proof. vm_compute. reflexivity. Qed.

Example missing_room_scenario :
  map response
    (snd (serveAll None
            [ (PostJoin "MISSING_ROOM" "X", chime "1");
              (GetRoster "MISSING_ROOM", outage) ] ∅)) =
    [ json (JoinBody (sampleMeeting "1") (sampleAttendee "1") {[ "att-1" := "X" ]});
      json (RosterBody {[ "att-1" := "X" ]}) ].
Proof. vm_compute. reflexivity. Qed.

(** ** Meeting creation *)

(** C1.  Creation is idempotent per title: when the table has an entry for
    the title, [/api/create] sends nothing to the provider and returns the
    stored Meeting; and whenever a create call succeeded, the next create
    call for the same title (whatever the provider would answer) sends
    nothing, leaves the table as it is and returns the very same response,
    so the same [MeetingId]. *)
Theorem create_idempotent (meetings : Meetings) (title : string) (P P' : Provider) :
  (forall d, meetings !! title = Some d ->
     serve P (api_create title) meetings =
       said meetings (json (MeetingBody (Some (meeting d)))) [])
  /\ (let first := serve P (api_create title) meetings in
      ok first = true ->
      serve P' (api_create title) (table first) =
        said (table first) (response first) []).
Proof.
  split.
  - intros d Hd. unfold serve, api_create. rewrite (getMeeting_own _ _ _ Hd).
    reflexivity.
  - unfold serve, api_create.
    destruct (getMeeting meetings title) as [d| |] eqn:Hget.
    + simpl. rewrite Hget. reflexivity.
    + simpl. rewrite Hget. reflexivity.
    + cbn [complete logged]. destruct (createMeeting P title) as [m|msg].
      * rewrite getMeeting_insert. cbn. intros _.
        rewrite getMeeting_insert. reflexivity.
      * cbn. discriminate.
Qed.

Lemma create_idempotent_witness :
  serve outage (api_create "ROOM1") room1 =
    said room1 (json (MeetingBody (Some (sampleMeeting "1")))) []
  /\ serve outage (api_create "ROOM2")
       (table (serve (chime "1") (api_create "ROOM2") room1)) =
     said (table (serve (chime "1") (api_create "ROOM2") room1))
       (json (MeetingBody (Some (sampleMeeting "1")))) [].
Proof.
  split.
  - apply (proj1 (create_idempotent room1 "ROOM1" outage outage)
             (newMeetingData (sampleMeeting "1"))).
    reflexivity.
  - apply (proj2 (create_idempotent room1 "ROOM2" (chime "1") outage)).
    reflexivity.
Defined.

(** ** Starting and stopping a recording *)

(** C5.  A stop that does not succeed leaves the table exactly as it was:
    it is either refused with 400 because no recording is active (nothing
    is sent), or the provider rejected the deletion and its message comes
    back with 500.  The table changes only when the provider deleted the
    pipeline, and then [pipelineId] of that entry becomes [null] and nothing
    else changes. *)
Theorem stop_failure_keeps_state (meetings : Meetings) (title : string)
    (P : Provider) :
  let res := serve P (api_record_stop title) meetings in
  (ok res = false ->
     table res = meetings
     /\ ((recording meetings title = false
          /\ response res = error 400 "Not recording" /\ exchanges res = [])
         \/ (exists d id msg,
               meetings !! title = Some d /\ pipelineId d = Str id
               /\ deleteMediaCapturePipeline P id = Rejected msg
               /\ response res = error 500 msg)))
  /\ (ok res = true ->
        exists d id,
          meetings !! title = Some d /\ pipelineId d = Str id
          /\ deleteMediaCapturePipeline P id = Resolved tt
          /\ table res = <[title := withPipelineId d Null]> meetings).
Proof.
  destruct (serve_stop_cases meetings title P)
    as [(Hrec & ->)
       |(d & id & Hd & Hp & Hrec & [(Hdel & ->)|(msg & Hdel & ->)])];
    unfold ok; cbn [said table response exchanges error json status Z.eqb];
    cbn [Pos.eqb]; (split; [|intros Hok]); try discriminate.
  - intros _. auto.
  - eauto 10.
  - intros _. split; [reflexivity|]. right. eauto 10.
Qed.

Lemma stop_failure_keeps_state_witness :
  table (serve outage (api_record_stop "ROOM1") room1Recording) = room1Recording
  /\ table (serve outage (api_record_stop "ROOM1") room1) = room1
  /\ exists d id,
       room1Recording !! "ROOM1" = Some d /\ pipelineId d = Str id
       /\ deleteMediaCapturePipeline (chime "1") id = Resolved tt
       /\ table (serve (chime "1") (api_record_stop "ROOM1") room1Recording)
          = <[ "ROOM1" := withPipelineId d Null ]> room1Recording.
Proof.
  split; [|split].
  - apply (proj1 (stop_failure_keeps_state room1Recording "ROOM1" outage)).
    reflexivity.
  - apply (proj1 (stop_failure_keeps_state room1 "ROOM1" outage)).
    reflexivity.
  - apply (proj2 (stop_failure_keeps_state room1Recording "ROOM1"
                    (chime "1"))).
    reflexivity.
Defined.

(** The handler on any [mode] is the handler above when the [mode] is a
    string or missing. *)
Lemma start_any_on_strings env (meetings : Meetings) title (mode : option string)
    (P : Provider) :
  serve P (api_record_start_any env title (JString <$> mode)) meetings
  = serve P (api_record_start env title mode) meetings.
Proof.
  unfold serve, api_record_start_any, api_record_start.
  destruct (getMeeting_cases meetings title)
    as [(d & Hd & Hget)|[(Hd & Hi & Hget)|(Hd & Hi & Hget)]]; rewrite Hget;
    try reflexivity.
  destruct (truthy (pipelineId d)); [reflexivity|].
  assert (Hinput : capturePipelineInputFor env (JString <$> mode) (meeting d)
                   = capturePipelineInput env mode (meeting d))
    by (destruct mode; reflexivity).
  rewrite Hinput. cbn [complete].
  destruct (createMediaCapturePipeline P _) as [p|msg]; [|reflexivity].
  rewrite Hget. destruct mode; reflexivity.
Qed.

(** C10, as stated, fails.  ROOM1 exists and is not recording; the start
    carries the mode [{"toString": 1}], which is not the string ['grid'].
    The raw capture is requested, the provider creates it, and the table
    records the pipeline; then the conversion of the mode for the message
    throws, and the answer is 500, not a success with the mode echoed. *)
Lemma unprintable_mode_not_reported :
  let res := serve (chime "7")
               (api_record_start_any None "ROOM1" (Some unprintableMode)) room1 in
  Some unprintableMode <> Some (JString "grid")
  /\ exchanges res
     = [did (CreateMediaCapturePipelineCommand
               (capturePipelineInputFor None (Some unprintableMode)
                  (sampleMeeting "1"))) true]
  /\ recording (table res) "ROOM1" = true
  /\ response res = error 500 cannotConvert
  /\ ok res = false.
Proof. cbv zeta. split; [discriminate|]. repeat split. Qed.

(** C10, as the code has it.  On an existing meeting that is not
    recording, every [mode] other than the exact string ['grid'] (missing,
    ['raw'], ['Grid'], [null], a number, an array, an object) gets the raw
    capture: audio on its own, individual video streams and content
    streams enabled, nothing composited.  The command is always sent and
    the provider's answer alone decides whether the recording starts: when
    it refuses, the answer is 500 with its message and nothing is stored;
    when it accepts, the pipeline and the mode as given are stored, and the
    answer is 200 with the mode's string conversion echoed in the message
    ([undefined] when missing) whenever the mode has one. *)
Theorem start_defaults_to_raw (AWS_ACCOUNT_ID : option string)
    (meetings : Meetings) (title : string) (mode : option JsonValue)
    (d : MeetingData) (P : Provider) :
  meetings !! title = Some d ->
  truthy (pipelineId d) = false ->
  mode <> Some (JString "grid") ->
  let input := capturePipelineInputFor AWS_ACCOUNT_ID mode (meeting d) in
  let res := serve P (api_record_start_any AWS_ACCOUNT_ID title mode) meetings in
  Audio (ArtifactsConfig input) = "AudioOnly"
  /\ Video (ArtifactsConfig input)
     = {| streamState := Enabled; MuxType := Some "VideoOnly" |}
  /\ Content (ArtifactsConfig input)
     = {| streamState := Enabled; MuxType := Some "ContentOnly" |}
  /\ CompositedVideo (ArtifactsConfig input) = None
  /\ exchanges res =
       [{| sent := CreateMediaCapturePipelineCommand input;
           succeeded := resolved (createMediaCapturePipeline P input) |}]
  /\ (forall p, createMediaCapturePipeline P input = Resolved p ->
        table res
        = <[title := withRecordingValue d (Str (MediaPipelineId p)) mode]> meetings
        /\ forall text, templateValue mode = Some text ->
             response res =
               json (RecordingBody ("Recording started (" ++ text ++ ")")
                       (MediaPipelineId p)))
  /\ (forall msg, createMediaCapturePipeline P input = Rejected msg ->
        response res = error 500 msg /\ table res = meetings).
Proof.
  intros Hd Hidle Hmode input res.
  assert (Hraw : ArtifactsConfig input = rawArtifacts).
  { unfold input, capturePipelineInputFor. cbn [ArtifactsConfig].
    destruct mode as [[| | |s| |]|]; cbn [isGridValue]; try reflexivity.
    destruct (String.eqb_spec s "grid") as [->|_]; [contradiction|reflexivity]. }
  rewrite Hraw. cbn [rawArtifacts Audio Video Content CompositedVideo].
  do 4 (split; [reflexivity|]).
  unfold res, serve, api_record_start_any.
  rewrite (getMeeting_own _ _ _ Hd), Hidle.
  cbn [complete logged table response exchanges]. fold input.
  destruct (createMediaCapturePipeline P input) as [p|msg] eqn:Hsend.
  - rewrite (getMeeting_own _ _ _ Hd). cbv zeta.
    destruct (templateValue mode) as [text|]; cbn [complete logged table response
                                                     exchanges resolved].
    + split; [reflexivity|]. split.
      * intros p' [= <-]. split; [reflexivity|]. intros text' [= <-]. reflexivity.
      * intros msg [=].
    + split; [reflexivity|]. split.
      * intros p' [= <-]. split; [reflexivity|]. intros text' [=].
      * intros msg [=].
  - cbn [complete logged table response exchanges resolved].
    split; [reflexivity|]. split.
    + intros p [=].
    + intros msg' [= <-]. auto.
Qed.

Lemma start_defaults_to_raw_witness :
  response (serve (chime "7")
              (api_record_start_any None "ROOM1" (Some (JString "Grid"))) room1)
    = json (RecordingBody "Recording started (Grid)" "pipe-7")
  /\ response (serve (chime "7") (api_record_start_any None "ROOM1" None) room1)
     = json (RecordingBody "Recording started (undefined)" "pipe-7")
  /\ response (serve (chime "7")
                 (api_record_start_any None "ROOM1"
                    (Some (JArray [JString "grid"]))) room1)
     = json (RecordingBody "Recording started (grid)" "pipe-7")
  /\ Video (ArtifactsConfig
              (capturePipelineInputFor None (Some (JArray [JString "grid"]))
                 (sampleMeeting "1")))
     = {| streamState := Enabled; MuxType := Some "VideoOnly" |}.
Proof.
  split; [|split; [|split]].
  - refine (proj2 (proj1 (proj2 (proj2 (proj2 (proj2 (proj2
      (start_defaults_to_raw None room1 "ROOM1" (Some (JString "Grid"))
         (newMeetingData (sampleMeeting "1")) (chime "7")
         _ _ _)))))) {| MediaPipelineId := "pipe-7" |} _) "Grid" _);
      [reflexivity | reflexivity | discriminate | reflexivity | reflexivity].
  - refine (proj2 (proj1 (proj2 (proj2 (proj2 (proj2 (proj2
      (start_defaults_to_raw None room1 "ROOM1" None
         (newMeetingData (sampleMeeting "1")) (chime "7")
         _ _ _)))))) {| MediaPipelineId := "pipe-7" |} _) "undefined" _);
      [reflexivity | reflexivity | discriminate | reflexivity | reflexivity].
  - refine (proj2 (proj1 (proj2 (proj2 (proj2 (proj2 (proj2
      (start_defaults_to_raw None room1 "ROOM1" (Some (JArray [JString "grid"]))
         (newMeetingData (sampleMeeting "1")) (chime "7")
         _ _ _)))))) {| MediaPipelineId := "pipe-7" |} _) "grid" _);
      [reflexivity | reflexivity | discriminate | reflexivity | reflexivity].
  - refine (proj1 (proj2
      (start_defaults_to_raw None room1 "ROOM1" (Some (JArray [JString "grid"]))
         (newMeetingData (sampleMeeting "1")) (chime "7") _ _ _)));
      [reflexivity | reflexivity | discriminate].
Defined.

(** ** Sequential histories

    What one request does to the recording state, to the provider's
    meetings and to the roster of a title, and from there what a whole
    history does. *)

Lemma recording_insert (meetings : Meetings) t d title :
  recording (<[t := d]> meetings) title =
    if String.eqb t title then truthy (pipelineId d) else recording meetings title.
Proof.
  unfold recording. destruct (String.eqb_spec t title) as [->|Hne].
  - rewrite lookup_insert_eq. reflexivity.
  - rewrite lookup_insert_ne by exact Hne. reflexivity.
Qed.

Lemma recording_own (meetings : Meetings) title d :
  meetings !! title = Some d -> recording meetings title = truthy (pipelineId d).
Proof. unfold recording. intros ->. reflexivity. Qed.

Lemma recording_none (meetings : Meetings) title :
  meetings !! title = None -> recording meetings title = false.
Proof. unfold recording. intros ->. reflexivity. Qed.

(** Requests that leave the recording state of every title alone. *)
Lemma recording_kept (meetings : Meetings) t d d' title :
  meetings !! t = Some d -> pipelineId d' = pipelineId d ->
  recording (<[t := d']> meetings) title = recording meetings title.
Proof.
  intros Hd Hp. rewrite recording_insert.
  destruct (String.eqb_spec t title) as [<-|]; [|reflexivity].
  rewrite (recording_own _ _ _ Hd). congruence.
Qed.

Lemma recording_fresh (meetings : Meetings) t m title :
  meetings !! t = None ->
  recording (<[t := newMeetingData m]> meetings) title = recording meetings title.
Proof.
  intros Hd. rewrite recording_insert.
  destruct (String.eqb_spec t title) as [<-|]; [|reflexivity].
  rewrite (recording_none _ _ Hd). reflexivity.
Qed.

Lemma stored_insert (meetings : Meetings) t d title :
  stored (<[t := d]> meetings) title =
    if String.eqb t title then true else stored meetings title.
Proof.
  unfold stored. destruct (String.eqb_spec t title) as [->|Hne].
  - rewrite lookup_insert_eq. reflexivity.
  - rewrite lookup_insert_ne by exact Hne. reflexivity.
Qed.

Lemma stored_own (meetings : Meetings) title d :
  meetings !! title = Some d -> stored meetings title = true.
Proof. unfold stored. intros ->. reflexivity. Qed.

Lemma stored_none (meetings : Meetings) title :
  meetings !! title = None -> stored meetings title = false.
Proof. unfold stored. intros ->. reflexivity. Qed.

Lemma stored_again (meetings : Meetings) t d d' title :
  meetings !! t = Some d ->
  stored (<[t := d']> meetings) title = stored meetings title.
Proof.
  intros Hd. rewrite stored_insert.
  destruct (String.eqb_spec t title) as [<-|]; [|reflexivity].
  symmetry. exact (stored_own _ _ _ Hd).
Qed.

Lemma rosterOf_insert (meetings : Meetings) t d title :
  rosterOf (<[t := d]> meetings) title =
    if String.eqb t title then default ∅ (attendees d) else rosterOf meetings title.
Proof.
  unfold rosterOf. destruct (String.eqb_spec t title) as [->|Hne].
  - rewrite lookup_insert_eq. reflexivity.
  - rewrite lookup_insert_ne by exact Hne. reflexivity.
Qed.

Lemma rosterOf_kept (meetings : Meetings) t d d' title :
  meetings !! t = Some d -> attendees d' = attendees d ->
  rosterOf (<[t := d']> meetings) title = rosterOf meetings title.
Proof.
  intros Hd Ha. rewrite rosterOf_insert.
  destruct (String.eqb_spec t title) as [<-|]; [|reflexivity].
  unfold rosterOf. rewrite Hd, Ha. reflexivity.
Qed.

Lemma rosterOf_fresh (meetings : Meetings) t m title :
  meetings !! t = None ->
  rosterOf (<[t := newMeetingData m]> meetings) title = rosterOf meetings title.
Proof.
  intros Hd. rewrite rosterOf_insert.
  destruct (String.eqb_spec t title) as [<-|]; [|reflexivity].
  unfold rosterOf. rewrite Hd. reflexivity.
Qed.

Lemma pipelinesHeld_app title (l1 l2 : list (Request * Exchange)) :
  pipelinesHeld title (l1 ++ l2) = pipelinesHeld title l1 + pipelinesHeld title l2.
Proof.
  induction l1 as [|[r x] l1 IH]; cbn [app pipelinesHeld]; [reflexivity|].
  rewrite IH. lia.
Qed.

Lemma meetingsCreated_app title (l1 l2 : list Exchange) :
  meetingsCreated title (l1 ++ l2) =
    (meetingsCreated title l1 + meetingsCreated title l2)%nat.
Proof. unfold meetingsCreated. rewrite List.filter_app, length_app. reflexivity. Qed.

Section Histories.

Variable env : option string.

(** One request: the recording state of every title moves as the response
    tells, and the provider's pipelines move with it. *)
Lemma serve_recording (r : Request) (P : Provider) (meetings : Meetings) title :
  mintsPipelineIds P ->
  let res := serve P (route env r) meetings in
  recording (table res) title = told title r res (recording meetings title)
  /\ pipelinesHeld title (map (pair r) (exchanges res)) =
       Z.b2z (recording (table res) title) - Z.b2z (recording meetings title).
Proof.
  intros Hmint.
  destruct r as [t|t|t name|t mode|t]; cbn [route told].
  - destruct (serve_create_cases meetings t P)
      as [(d & Hd & ->)|[(Hd & Hi & ->)|(Hd & Hi & [(m & _ & ->)|(msg & _ & ->)])]];
      simplify_held; rewrite ?(recording_fresh _ _ _ _ Hd);
      split; reflexivity || lia.
  - destruct (serve_roster_cases meetings t P) as (-> & -> & _).
    simplify_held. split; reflexivity || lia.
  - destruct (serve_join_cases meetings t name P)
      as [(d & Hd & [(a & _ & ->)|(msg & _ & ->)])
         |[(Hd & Hi & ->)
          |(Hd & Hi & [(msg & _ & ->)
                      |(m & _ & [(a & _ & ->)|(msg & _ & ->)])])]];
      simplify_held; unfold joined.
    + rewrite (recording_kept meetings t d) by (exact Hd || reflexivity).
      split; reflexivity || lia.
    + split; reflexivity || lia.
    + split; reflexivity || lia.
    + split; reflexivity || lia.
    + rewrite (recording_kept _ t (newMeetingData m)) by
        (reflexivity || apply lookup_insert_eq).
      rewrite (recording_fresh _ _ _ _ Hd). split; reflexivity || lia.
    + rewrite (recording_fresh _ _ _ _ Hd). split; reflexivity || lia.
  - destruct (serve_start_cases env meetings t mode P)
      as [(d & Hd & [(Hrec & ->)|(Hrec & [(p & Hp & ->)|(msg & _ & ->)])])
         |[(Hd & Hi & prop & ->)|(Hd & Hi & ->)]];
      unfold ok; simplify_held; cbn [response error json status];
      rewrite ?andb_false_r.
    1,3,4,5: destruct (String.eqb t title); split; reflexivity || (cbn; lia).
    rewrite recording_insert.
    destruct (String.eqb_spec t title) as [->|Hne]; cbn.
    + rewrite (recording_own _ _ _ Hd), Hrec.
      apply Hmint, String.eqb_neq in Hp. rewrite Hp.
      split; [reflexivity|]. cbn. lia.
    + split; reflexivity || lia.
  - destruct (serve_stop_cases meetings t P)
      as [(Hrec & ->)
         |(d & id & Hd & Hp & Hrec & [(_ & ->)|(msg & _ & ->)])];
      unfold ok; simplify_held; cbn [response error json status];
      rewrite ?andb_false_r.
    1,3: destruct (String.eqb t title); split; reflexivity || (cbn; lia).
    rewrite recording_insert.
    destruct (String.eqb_spec t title) as [->|Hne]; cbn.
    + rewrite Hrec. split; [reflexivity|]. cbn. lia.
    + split; reflexivity || lia.
Qed.

Lemma serveAll_recording (calls : list Call) :
  forall (meetings : Meetings) title,
    Forall (fun c => mintsPipelineIds (snd c)) calls ->
    recording (fst (serveAll env calls meetings)) title =
      activeAfter title calls (snd (serveAll env calls meetings))
        (recording meetings title)
    /\ pipelinesHeld title (tagged calls (snd (serveAll env calls meetings))) =
         Z.b2z (recording (fst (serveAll env calls meetings)) title)
         - Z.b2z (recording meetings title).
Proof.
  induction calls as [|[r P] calls IH]; intros meetings title Hmint.
  - cbn. split; [reflexivity|lia].
  - inversion Hmint as [|? ? HP Hrest]; subst. cbn [snd] in HP.
    destruct (serve_recording r P meetings title HP) as [Hstate Hdelta].
    cbv zeta in Hstate, Hdelta.
    specialize (IH (table (serve P (route env r) meetings)) title Hrest).
    cbn [serveAll].
    destruct (serveAll env calls (table (serve P (route env r) meetings)))
      as [final results].
    cbn [fst snd activeAfter tagged] in *. rewrite pipelinesHeld_app.
    destruct IH as [IHstate IHlive].
    rewrite <- Hstate. split; [exact IHstate|lia].
Qed.

(** One request: the provider creates a meeting for [title] exactly when
    the title gets its entry. *)
Lemma serve_created (r : Request) (P : Provider) (meetings : Meetings) title :
  let res := serve P (route env r) meetings in
  Z.of_nat (meetingsCreated title (exchanges res)) =
    Z.b2z (stored (table res) title) - Z.b2z (stored meetings title).
Proof.
  unfold meetingsCreated.
  destruct r as [t|t|t name|t mode|t]; cbn [route].
  - destruct (serve_create_cases meetings t P)
      as [(d & Hd & ->)|[(Hd & Hi & ->)|(Hd & Hi & [(m & _ & ->)|(msg & _ & ->)])]];
      cbn [said table exchanges List.filter did createdMeeting sent succeeded];
      rewrite ?andb_false_r, ?andb_true_r; cbn [length]; try lia.
    rewrite stored_insert.
    destruct (String.eqb_spec t title) as [->|Hne]; cbn [length].
    + rewrite (stored_none _ _ Hd). reflexivity.
    + lia.
  - destruct (serve_roster_cases meetings t P) as (-> & -> & _). cbn. lia.
  - destruct (serve_join_cases meetings t name P)
      as [(d & Hd & [(a & _ & ->)|(msg & _ & ->)])
         |[(Hd & Hi & ->)
          |(Hd & Hi & [(msg & _ & ->)
                      |(m & _ & [(a & _ & ->)|(msg & _ & ->)])])]];
      cbn [said table exchanges List.filter did createdMeeting sent succeeded];
      rewrite ?andb_false_r, ?andb_true_r; cbn [length]; unfold joined; try lia.
    + rewrite (stored_again _ _ _ _ _ Hd). cbn. lia.
    + rewrite (stored_again _ t (newMeetingData m)) by apply lookup_insert_eq.
      rewrite stored_insert.
      destruct (String.eqb_spec t title) as [->|Hne]; cbn [length].
      * rewrite (stored_none _ _ Hd). reflexivity.
      * lia.
    + rewrite stored_insert.
      destruct (String.eqb_spec t title) as [->|Hne]; cbn [length].
      * rewrite (stored_none _ _ Hd). reflexivity.
      * lia.
  - destruct (serve_start_cases env meetings t mode P)
      as [(d & Hd & [(Hrec & ->)|(Hrec & [(p & Hp & ->)|(msg & _ & ->)])])
         |[(Hd & Hi & prop & ->)|(Hd & Hi & ->)]];
      cbn [said table exchanges List.filter did createdMeeting sent succeeded length];
      try lia.
    rewrite (stored_again _ _ _ _ _ Hd). lia.
  - destruct (serve_stop_cases meetings t P)
      as [(Hrec & ->)
         |(d & id & Hd & Hp & Hrec & [(_ & ->)|(msg & _ & ->)])];
      cbn [said table exchanges List.filter did createdMeeting sent succeeded length];
      try lia.
    rewrite (stored_again _ _ _ _ _ Hd). lia.
Qed.

Lemma serveAll_created (calls : list Call) :
  forall (meetings : Meetings) title,
    Z.of_nat (meetingsCreated title
                (map snd (tagged calls (snd (serveAll env calls meetings))))) =
      Z.b2z (stored (fst (serveAll env calls meetings)) title)
      - Z.b2z (stored meetings title).
Proof.
  induction calls as [|[r P] calls IH]; intros meetings title.
  - cbn. lia.
  - pose proof (serve_created r P meetings title) as Hone. cbv zeta in Hone.
    specialize (IH (table (serve P (route env r) meetings)) title).
    cbn [serveAll].
    destruct (serveAll env calls (table (serve P (route env r) meetings)))
      as [final results].
    cbn [fst snd tagged] in *.
    rewrite map_app, meetingsCreated_app, map_map, map_id. lia.
Qed.

(** One request: the roster of [title] gains the attendee of a successful
    join to [title] and is otherwise left alone. *)
Lemma serve_roster (r : Request) (P : Provider) (meetings : Meetings) title :
  let res := serve P (route env r) meetings in
  rosterOf (table res) title =
    match joinedAs title r res with
    | Some e => enter (rosterOf meetings title) e
    | None => rosterOf meetings title
    end.
Proof.
  unfold joinedAs.
  destruct r as [t|t|t name|t mode|t]; cbn [route].
  - destruct (serve_create_cases meetings t P)
      as [(d & Hd & ->)|[(Hd & Hi & ->)|(Hd & Hi & [(m & _ & ->)|(msg & _ & ->)])]];
      cbn [said table]; rewrite ?(rosterOf_fresh _ _ _ _ Hd); reflexivity.
  - destruct (serve_roster_cases meetings t P) as (-> & _ & _). reflexivity.
  - destruct (serve_join_cases meetings t name P)
      as [(d & Hd & [(a & _ & ->)|(msg & _ & ->)])
         |[(Hd & Hi & ->)
          |(Hd & Hi & [(msg & _ & ->)
                      |(m & _ & [(a & _ & ->)|(msg & _ & ->)])])]];
      cbn [said table response body json error]; unfold joined;
      rewrite ?(rosterOf_fresh _ _ _ _ Hd); try reflexivity.
    + rewrite rosterOf_insert.
      destruct (String.eqb_spec t title) as [<-|]; [|reflexivity].
      unfold rosterOf. rewrite Hd. reflexivity.
    + rewrite !rosterOf_insert.
      destruct (String.eqb_spec t title) as [<-|].
      * unfold rosterOf. rewrite Hd. reflexivity.
      * reflexivity.
  - destruct (serve_start_cases env meetings t mode P)
      as [(d & Hd & [(Hrec & ->)|(Hrec & [(p & Hp & ->)|(msg & _ & ->)])])
         |[(Hd & Hi & prop & ->)|(Hd & Hi & ->)]];
      cbn [said table]; try reflexivity.
    apply (rosterOf_kept _ _ _ _ _ Hd). reflexivity.
  - destruct (serve_stop_cases meetings t P)
      as [(Hrec & ->)
         |(d & id & Hd & Hp & Hrec & [(_ & ->)|(msg & _ & ->)])];
      cbn [said table]; try reflexivity.
    apply (rosterOf_kept _ _ _ _ _ Hd). reflexivity.
Qed.

Lemma serveAll_roster (calls : list Call) :
  forall (meetings : Meetings) title,
    rosterOf (fst (serveAll env calls meetings)) title =
      fold_left enter (entrants title calls (snd (serveAll env calls meetings)))
        (rosterOf meetings title).
Proof.
  induction calls as [|[r P] calls IH]; intros meetings title; [reflexivity|].
  pose proof (serve_roster r P meetings title) as Hone. cbv zeta in Hone.
  specialize (IH (table (serve P (route env r) meetings)) title).
  cbn [serveAll].
  destruct (serveAll env calls (table (serve P (route env r) meetings)))
    as [final results].
  cbn [fst snd entrants] in *. rewrite IH, Hone.
  destruct (joinedAs title r (serve P (route env r) meetings)); reflexivity.
Qed.

End Histories.

(** ** One recording at a time *)





(** ** Sequential histories as runs of the interleaved server *)

(** Every handler awaits at most twice. *)
Lemma route_within env (r : Request) (meetings : Meetings) :
  within 2 (snd (route env r meetings)).
Proof.
  destruct r as [t|t|t name|t mode|t]; cbn [route].
  - unfold api_create. cbv zeta.
    destruct (getMeeting meetings t) eqn:Hget; rewrite ?Hget; cbn [snd];
      try constructor.
    intros [m|msg] m'; [|constructor].
    destruct (getMeeting (<[t:=newMeetingData m]> m') t); constructor.
  - unfold api_roster. destruct (getMeeting meetings t); constructor.
  - unfold api_join. cbv zeta.
    destruct (getMeeting meetings t) eqn:Hget; cbn [snd]; repeat constructor.
    + intros [a|msg] m'; [|constructor].
      destruct (getMeeting m' t); constructor.
    + intros [m|msg] m'; cbn [snd]; repeat constructor.
      intros [a|msg] m''; [|constructor].
      destruct (getMeeting m'' t); constructor.
  - unfold api_record_start.
    destruct (getMeeting meetings t) as [d| |]; cbn [snd].
    + destruct (truthy (pipelineId d)); cbn [snd]; repeat constructor.
      intros [p|msg] m'; [|constructor].
      destruct (getMeeting m' t); constructor.
    + destruct env as [a|]; [destruct (truthy_string a)|]; constructor.
    + constructor.
  - unfold api_record_stop.
    destruct (getMeeting meetings t) as [d| |]; cbn [snd]; try constructor.
    destruct (pipelineId d) as [| |id]; cbn [snd]; try constructor.
    destruct (truthy (Str id)); cbn [snd]; repeat constructor.
    intros [[]|msg] m'; [|constructor].
    destruct (getMeeting m' t); constructor.
Qed.

Lemma idle_settles env P n (sv : Server) :
  inflight sv = [] -> fold_left (step env) (repeat (Settles 0 P) n) sv = sv.
Proof.
  intros Hidle. induction n as [|n IH]; [reflexivity|].
  cbn [repeat fold_left]. unfold step at 2. rewrite Hidle. exact IH.
Qed.

(** Settling the commands of the only handler in flight, one after the
    other, completes it as [complete] does. *)
Lemma settles_complete env P (r : Request) n :
  forall (t : Task) (m : Meetings) (ans : list Response)
         (log : list (Request * Exchange)) (sv : Server),
    within n t -> answered sv = ans ->
    fold_left (step env) (repeat (Settles 0 P) n) (settle r [] log sv (m, t)) =
      {| store := table (complete P t m);
         inflight := [];
         answered := ans ++ [response (complete P t m)];
         traffic := log ++ map (pair r) (exchanges (complete P t m)) |}.
Proof.
  induction n as [|n IH]; intros t m ans log sv Hin Hans.
  - inversion Hin; subst. cbn. rewrite app_nil_r. reflexivity.
  - inversion Hin as [? resp|? x k Hk|? x k Hk|? x k Hk|? x k Hk]; subst.
    + cbn [settle]. rewrite idle_settles by reflexivity.
      cbn. rewrite app_nil_r. reflexivity.
    + settle_one IH Hk (createMeeting P x) m.
    + settle_one IH Hk (createAttendee P x) m.
    + settle_one IH Hk (createMediaCapturePipeline P x) m.
    + settle_one IH Hk (deleteMediaCapturePipeline P x) m.
Qed.

Lemma step_sequentially env (r : Request) (P : Provider) (sv : Server) :
  inflight sv = [] ->
  fold_left (step env) [Arrives r; Settles 0 P; Settles 0 P] sv =
    let res := serve P (route env r) (store sv) in
    {| store := table res;
       inflight := [];
       answered := answered sv ++ [response res];
       traffic := traffic sv ++ map (pair r) (exchanges res) |}.
Proof.
  intros Hidle. cbn [fold_left]. unfold step at 3. rewrite Hidle.
  pose proof (route_within env r (store sv)) as Hin. unfold serve.
  destruct (route env r (store sv)) as [m t]. cbn [snd] in Hin.
  exact (settles_complete env P r 2 t m (answered sv) (traffic sv) sv Hin eq_refl).
Qed.

Lemma run_sequentially env (calls : list Call) :
  forall sv : Server,
    inflight sv = [] ->
    fold_left (step env) (sequentially calls) sv =
      {| store := fst (serveAll env calls (store sv));
         inflight := [];
         answered := answered sv ++ map response (snd (serveAll env calls (store sv)));
         traffic := traffic sv ++ tagged calls (snd (serveAll env calls (store sv))) |}.
Proof.
  induction calls as [|[r P] calls IH]; intros sv Hidle.
  - destruct sv as [m i a l]. cbn in *. subst. rewrite !app_nil_r. reflexivity.
  - unfold sequentially. cbn [flat_map fst snd]. rewrite fold_left_app.
    rewrite step_sequentially by exact Hidle. cbv zeta.
    fold (sequentially calls). rewrite IH by reflexivity.
    cbn [store answered traffic serveAll].
    destruct (serveAll env calls (table (serve P (route env r) (store sv))))
      as [final results].
    cbn [fst snd map tagged]. rewrite <- !app_assoc. reflexivity.
Qed.

Lemma schedule_sequentially env (calls : list Call) :
  schedule env (sequentially calls) =
    {| store := fst (serveAll env calls ∅);
       inflight := [];
       answered := map response (snd (serveAll env calls ∅));
       traffic := tagged calls (snd (serveAll env calls ∅)) |}.
Proof. unfold schedule. rewrite run_sequentially by reflexivity. reflexivity. Qed.

(** ** Requests that overlap *)

(** Served one after the other (no request arrives while another awaits
    the provider), the requests never make the provider create a second
    meeting for a title, and (pipeline identifiers being non-empty) never
    make it hold two capture pipelines for a title at once. *)
Lemma sequential_requests_exclusive env (calls : list Call) (title : string) :
  exclusiveCreation (schedule env (sequentially calls)) title
  /\ (Forall (fun c => mintsPipelineIds (snd c)) calls ->
      exclusiveRecording (schedule env (sequentially calls)) title).
Proof.
  unfold exclusiveCreation, exclusiveRecording.
  rewrite schedule_sequentially. cbn [traffic]. split.
  - pose proof (serveAll_created env calls ∅ title) as Hc.
    change (stored ∅ title) with false in Hc.
    destruct (stored (fst (serveAll env calls ∅)) title); cbn in Hc; lia.
  - intros Hmint.
    destruct (serveAll_recording env calls ∅ title Hmint) as [_ Hlive].
    change (recording ∅ title) with false in Hlive.
    destruct (recording (fst (serveAll env calls ∅)) title); cbn in Hlive; lia.
Qed.

Lemma sequential_requests_exclusive_witness :
  exclusiveRecording (schedule None (sequentially recordingHistory)) "ROOM1".
Proof.
  apply (proj2 (sequential_requests_exclusive None recordingHistory "ROOM1")).
  repeat constructor; intros x p [= <-]; discriminate.
Defined.

(** C9 at the inputs where the code departs from it.  Each handler checks
    the table before its [await] and writes it after, and nothing keeps two
    requests for a title apart in between.  A create and a join that both
    arrive before the provider has answered both find the title missing
    and both have a meeting created, against "will not create duplicate
    meetings"; the later answer overwrites the earlier entry.  Two starts
    that overlap both pass the check of [pipelineId] and both have a
    pipeline created, against "Only one recording can be active per meeting
    at a time". *)
Theorem overlapping_requests_not_exclusive :
  ~ exclusiveCreation (schedule None creationRace) "ROOM1"
  /\ ~ exclusiveRecording (schedule None recordingRace) "ROOM1".
Proof.
  split.
  - unfold exclusiveCreation.
    change (meetingsCreated "ROOM1" (map snd (traffic (schedule None creationRace))))
      with 2%nat.
    lia.
  - unfold exclusiveRecording.
    change (pipelinesHeld "ROOM1" (traffic (schedule None recordingRace))) with 2.
    lia.
Qed.

(** ** Titles that name a property of [Object.prototype] *)

(** What the five handlers answer for a title that the table inherits and
    does not own: the table is left alone and nothing is sent. *)
Lemma inherited_title_answers env (meetings : Meetings) title (P : Provider) :
  inherited title = true -> meetings !! title = None ->
  serve P (api_create title) meetings = said meetings (json (MeetingBody None)) []
  /\ serve P (api_roster title) meetings = said meetings (json (RosterBody ∅)) []
  /\ (forall name,
        serve P (api_join title name) meetings =
          said meetings (error 500 (cannotRead "MeetingId")) [])
  /\ (forall mode,
        serve P (api_record_start env title mode) meetings =
          said meetings
            (error 500 (cannotRead
               (match env with
                | Some a => if truthy_string a then "MeetingId" else "MeetingArn"
                | None => "MeetingArn"
                end))) [])
  /\ serve P (api_record_stop title) meetings =
       said meetings (error 400 "Not recording") [].
Proof.
  intros Hi Hd.
  assert (Hget : getMeeting meetings title = Inherited).
  { unfold getMeeting. rewrite Hd, Hi. reflexivity. }
  unfold serve, api_create, api_roster, api_join, api_record_start,
    api_record_stop. cbv zeta. rewrite !Hget. repeat split.
  intros mode. destruct env as [a|]; [destruct (truthy_string a)|]; reflexivity.
Qed.

(** C4 at the input where the code departs from it.  No meeting has been
    created, yet a start for the title [constructor] is not answered 404:
    [meetings['constructor']] is the inherited constructor function, the
    guard [!meetingData] lets it pass, and the first read of
    [meetingData.meeting] throws inside [try] and is answered 500.  Nothing
    is sent to the provider.  (For all other titles [serve_start_cases]
    gives the contract: 404, 400, or the provider's outcome.) *)
Theorem start_on_inherited_title :
  (∅ : Meetings) !! "constructor" = None
  /\ serve (chime "1") (api_record_start None "constructor" (Some "raw")) ∅
     = said ∅ (error 500 (cannotRead "MeetingArn")) []
  /\ serve (chime "1")
       (api_record_start (Some "123456789012") "constructor" (Some "raw")) ∅
     = said ∅ (error 500 (cannotRead "MeetingId")) [].
Proof.
  split; [reflexivity|].
  split.
  - apply (inherited_title_answers None ∅ "constructor" (chime "1"));
      reflexivity.
  - apply (inherited_title_answers (Some "123456789012") ∅ "constructor" (chime "1"));
      reflexivity.
Qed.

(** C3 at the input where the code departs from it.  With a provider that
    carries out every command and no meeting created, a join to the title
    [constructor] does not create the meeting: [meetings['constructor']] is
    truthy, [meeting] becomes [undefined] and reading [meeting.MeetingId]
    throws; the answer is 500, nothing is sent, no attendee is minted, and
    the roster served for the title stays empty. *)
Theorem join_on_inherited_title :
  serve (chime "1") (api_join "constructor" "X") ∅
    = said ∅ (error 500 (cannotRead "MeetingId")) []
  /\ serve (chime "1") (api_roster "constructor") ∅
     = said ∅ (json (RosterBody ∅)) [].
Proof.
  split.
  - apply (inherited_title_answers None ∅ "constructor" (chime "1"));
      reflexivity.
  - apply (inherited_title_answers None ∅ "constructor" (chime "1"));
      reflexivity.
Qed.

(** ** Joining under any other title *)

(** For a title that names no inherited property, a join succeeds whether
    or not the meeting exists, provided the provider carries out what it
    is asked; it always has exactly one attendee minted. *)
Lemma join_creates_or_joins (meetings : Meetings) title name (P : Provider) :
  inherited title = false ->
  (forall x, resolved (createMeeting P x) = true) ->
  (forall x, resolved (createAttendee P x) = true) ->
  let res := serve P (api_join title name) meetings in
  exists m a,
    response res =
      json (JoinBody m a (<[AttendeeId a := name]> (rosterOf meetings title)))
    /\ table res !! title =
         Some (withAttendees
                 (default (newMeetingData m) (meetings !! title))
                 (<[AttendeeId a := name]> (rosterOf meetings title)))
    /\ List.filter (fun x => match sent x with
                             | CreateAttendeeCommand _ => true
                             | _ => false
                             end) (exchanges res)
       = [did (CreateAttendeeCommand (MeetingId m)) true].
Proof.
  intros Hi Hm Ha. unfold rosterOf.
  destruct (serve_join_cases meetings title name P)
    as [(d & Hd & [(a & Hsend & ->)|(msg & Hsend & ->)])
       |[(Hd & Hi' & ->)
        |(Hd & _ & [(msg & Hsend & ->)
                    |(m & _ & [(a & Hsend & ->)|(msg & Hsend & ->)])])]];
    try (specialize (Ha (MeetingId (meeting d))); rewrite Hsend in Ha; discriminate);
    try (specialize (Hm title); rewrite Hsend in Hm; discriminate);
    try (specialize (Ha (MeetingId m)); rewrite Hsend in Ha; discriminate);
    try congruence.
  - exists (meeting d), a. rewrite Hd. cbn. unfold joined.
    rewrite lookup_insert_eq. auto.
  - exists m, a. rewrite Hd. cbn. unfold joined.
    rewrite lookup_insert_eq. auto.
Qed.

(** Entering attendees with pairwise distinct, new identifiers adds one
    entry each. *)
Lemma enter_keeps (l : list (string * string)) :
  forall (roster : Roster) a name,
    a ∉ fst <$> l -> roster !! a = Some name ->
    fold_left enter l roster !! a = Some name.
Proof.
  induction l as [|[b n] l IH]; intros roster a name Hnotin Hr; [exact Hr|].
  cbn [fold_left]. rewrite fmap_cons in Hnotin. cbn [fst] in Hnotin.
  apply not_elem_of_cons in Hnotin as [Hne Hnotin].
  apply IH; [exact Hnotin|]. unfold enter. cbn [fst snd].
  rewrite lookup_insert_ne by congruence. exact Hr.
Qed.

Lemma enter_all_size (l : list (string * string)) :
  forall roster : Roster,
    NoDup (fst <$> l) ->
    (forall e, e ∈ l -> roster !! fst e = None) ->
    size (fold_left enter l roster) = (size roster + length l)%nat
    /\ forall e, e ∈ l -> fold_left enter l roster !! fst e = Some (snd e).
Proof.
  induction l as [|[a name] l IH]; intros roster Hnd Hnew; cbn [fold_left length].
  - split; [lia|]. intros e He. inversion He.
  - rewrite fmap_cons in Hnd. cbn [fst] in Hnd.
    apply NoDup_cons in Hnd as [Hnotin Hnd].
    assert (Hnew' : forall e, e ∈ l -> enter roster (a, name) !! fst e = None).
    { intros e He. unfold enter. cbn [fst snd].
      rewrite lookup_insert_ne.
      - apply Hnew. right. exact He.
      - intros Heq. apply Hnotin. rewrite Heq.
        apply list_elem_of_fmap. exists e. auto. }
    destruct (IH (enter roster (a, name)) Hnd Hnew') as [Hsize Hall].
    split.
    + rewrite Hsize. unfold enter. cbn [fst snd].
      rewrite map_size_insert_None by (apply (Hnew (a, name)); left).
      lia.
    + intros e He. apply elem_of_cons in He as [->|He]; [|auto].
      cbn [fst snd]. apply enter_keeps; [exact Hnotin|].
      unfold enter. cbn [fst snd]. apply lookup_insert_eq.
Qed.

(** After the successful joins of a sequential history from the empty
    table, minted pairwise distinct identifiers, the roster of the title
    has exactly one entry per join, keyed by the attendee identifier and
    holding the name given. *)
Lemma joins_fill_roster env (calls : list Call) title :
  let results := snd (serveAll env calls ∅) in
  let roster := rosterOf (fst (serveAll env calls ∅)) title in
  NoDup (fst <$> entrants title calls results) ->
  size roster = length (entrants title calls results)
  /\ forall e, e ∈ entrants title calls results -> roster !! fst e = Some (snd e).
Proof.
  intros results roster Hnd. subst roster results.
  rewrite serveAll_roster. change (rosterOf ∅ title) with (∅ : Roster).
  destruct (enter_all_size _ ∅ Hnd (fun e _ => lookup_empty (fst e)))
    as [Hsize Hall].
  rewrite Hsize, map_size_empty. auto.
Qed.

(** ** Entries are never removed, inherited names never become own

    The branches marked "not reached" in the handlers need a title that
    had an own entry when a command was sent and has none when the handler
    is resumed, or a handler suspended for a title that the table
    inherits.  Neither occurs: along every run, interleaved or not, the
    table only grows; it stays well keyed; and for an inherited title on a
    well-keyed table every handler answers at once
    ([inherited_title_answers]). *)

Lemma wellKeyed_empty : wellKeyed ∅.
Proof. intros title [d Hd]. rewrite lookup_empty in Hd. discriminate. Qed.

Lemma grows_refl (meetings : Meetings) : grows meetings meetings.
Proof. split; auto. Qed.

Lemma grows_trans (m1 m2 m3 : Meetings) : grows m1 m2 -> grows m2 m3 -> grows m1 m3.
Proof. intros [H1 W1] [H2 W2]. split; auto. Qed.

Lemma grows_insert (meetings : Meetings) title d :
  is_Some (meetings !! title) \/ inherited title = false ->
  grows meetings (<[title := d]> meetings).
Proof.
  intros Hor. split.
  - intros t Ht. destruct (decide (title = t)) as [<-|Hne].
    + rewrite lookup_insert_eq. eauto.
    + rewrite lookup_insert_ne by exact Hne. exact Ht.
  - intros Hwk t Ht. destruct (decide (title = t)) as [<-|Hne].
    + destruct Hor as [Hown|Hi]; [exact (Hwk _ Hown)|exact Hi].
    + rewrite lookup_insert_ne in Ht by exact Hne. exact (Hwk _ Ht).
Qed.

Lemma grows_own (meetings : Meetings) title d d' :
  getMeeting meetings title = Own d -> grows meetings (<[title := d']> meetings).
Proof.
  intros Hget. apply grows_insert. left.
  apply getMeeting_Own_inv in Hget. rewrite Hget. eauto.
Qed.

(** Closes the cases of [route_tidy]: a response, or a table written at a
    title that is own or not inherited. *)
Ltac tidy_case :=
  cbn [fst snd];
  first
    [ split; [apply grows_refl | constructor]
    | split; [eapply grows_own; eassumption | constructor]
    | split; [apply grows_insert; auto | constructor] ].

Lemma route_tidy env (r : Request) (meetings : Meetings) :
  grows meetings (fst (route env r meetings)) /\ tidy (snd (route env r meetings)).
Proof.
  destruct r as [t|t|t name|t mode|t]; cbn [route].
  - unfold api_create. cbv zeta.
    destruct (getMeeting_cases meetings t)
      as [(d & Hd & Hget)|[(Hd & Hi & Hget)|(Hd & Hi & Hget)]]; rewrite !Hget;
      cbn [fst snd]; (split; [apply grows_refl|]); constructor.
    intros [m|msg] m'; [|tidy_case].
    rewrite getMeeting_insert. tidy_case.
  - unfold api_roster. destruct (getMeeting meetings t); tidy_case.
  - unfold api_join. cbv zeta.
    destruct (getMeeting_cases meetings t)
      as [(d & Hd & Hget)|[(Hd & Hi & Hget)|(Hd & Hi & Hget)]]; rewrite !Hget;
      cbn [fst snd]; (split; [apply grows_refl|]); constructor.
    + intros [a|msg] m'; [|tidy_case].
      destruct (getMeeting m' t) as [d'| |] eqn:Hget'; tidy_case.
    + intros [m|msg] m'; [|tidy_case].
      cbn [fst snd]. split; [apply grows_insert; auto|]. constructor.
      intros [a|msg] m''; [|tidy_case].
      destruct (getMeeting m'' t) as [d'| |] eqn:Hget'; tidy_case.
  - unfold api_record_start.
    destruct (getMeeting meetings t) as [d| |]; cbn [fst snd].
    + destruct (truthy (pipelineId d)); cbn [fst snd];
        (split; [apply grows_refl|]); constructor.
      intros [p|msg] m'; [|tidy_case].
      destruct (getMeeting m' t) as [d'| |] eqn:Hget'; tidy_case.
    + destruct env as [a|]; [destruct (truthy_string a)|]; tidy_case.
    + tidy_case.
  - unfold api_record_stop.
    destruct (getMeeting meetings t) as [d| |]; try tidy_case.
    destruct (pipelineId d) as [| |id]; try tidy_case.
    destruct (truthy (Str id)); cbn [fst snd];
      (split; [apply grows_refl|]); constructor.
    intros [[]|msg] m'; [|tidy_case].
    destruct (getMeeting m' t) as [d'| |] eqn:Hget'; tidy_case.
Qed.

Lemma settle_tidy (r : Request) (others : list (Request * Task))
    (log : list (Request * Exchange)) (sv : Server) (next : Meetings * Task) :
  tidy (snd next) ->
  Forall (fun p => tidy (snd p)) others ->
  store (settle r others log sv next) = fst next
  /\ Forall (fun p => tidy (snd p)) (inflight (settle r others log sv next)).
Proof.
  destruct next as [m t]. cbn [fst snd]. intros Ht Hothers.
  destruct t; cbn [settle store inflight]; (split; [reflexivity|]);
    try exact Hothers; apply Forall_app; split; auto.
Qed.

Lemma resume_tidy (P : Provider) (t : Task) (meetings : Meetings) x next :
  tidy t -> resume P t meetings = Some (x, next) ->
  grows meetings (fst next) /\ tidy (snd next).
Proof.
  intros Ht Hres.
  destruct Ht as [resp|c k Hk|c k Hk|c k Hk|c k Hk]; cbn [resume] in Hres;
    [discriminate|..]; injection Hres as _ <-; apply Hk.
Qed.

Lemma step_tidy env (sv : Server) (e : Event) :
  Forall (fun p => tidy (snd p)) (inflight sv) ->
  grows (store sv) (store (step env sv e))
  /\ Forall (fun p => tidy (snd p)) (inflight (step env sv e)).
Proof.
  intros Hall. destruct e as [r|i P]; cbn [step].
  - destruct (route_tidy env r (store sv)) as [Hg Ht].
    destruct (settle_tidy r (inflight sv) (traffic sv) sv _ Ht Hall) as [-> Hall'].
    auto.
  - destruct (inflight sv !! i) as [[r t]|] eqn:Hi; [|split; [apply grows_refl|auto]].
    destruct (resume P t (store sv)) as [[x next]|] eqn:Hres;
      [|split; [apply grows_refl|auto]].
    assert (Ht : tidy t).
    { apply (proj1 (Forall_lookup _ _) Hall i (r, t) Hi). }
    destruct (resume_tidy P t (store sv) x next Ht Hres) as [Hg Ht'].
    destruct (settle_tidy r (delete i (inflight sv)) (traffic sv ++ [(r, x)]) sv
                next Ht' (Forall_delete _ _ _ Hall)) as [-> Hall'].
    auto.
Qed.

Lemma run_tidy env (events : list Event) :
  forall sv : Server,
    Forall (fun p => tidy (snd p)) (inflight sv) ->
    grows (store sv) (store (fold_left (step env) events sv))
    /\ Forall (fun p => tidy (snd p)) (inflight (fold_left (step env) events sv)).
Proof.
  induction events as [|e events IH]; intros sv Hall.
  - split; [apply grows_refl|exact Hall].
  - cbn [fold_left]. destruct (step_tidy env sv e Hall) as [Hg Hall'].
    destruct (IH (step env sv e) Hall') as [Hg' Hall''].
    split; [exact (grows_trans _ _ _ Hg Hg')|exact Hall''].
Qed.

(** Along every run of the server no own entry of the table carries an
    inherited name, and an entry once written is there in every later
    state. *)
Lemma schedule_wellKeyed env (events : list Event) :
  wellKeyed (store (schedule env events)).
Proof.
  unfold schedule.
  destruct (run_tidy env events boot) as [[_ Hwk] _]; [constructor|].
  apply Hwk, wellKeyed_empty.
Qed.

Lemma schedule_keeps_entries env (events later : list Event) title :
  is_Some (store (schedule env events) !! title) ->
  is_Some (store (schedule env (events ++ later)) !! title).
Proof.
  unfold schedule. rewrite fold_left_app.
  destruct (run_tidy env events boot) as [_ Hall]; [constructor|].
  destruct (run_tidy env later _ Hall) as [[Hkeep _] _].
  apply Hkeep.
Qed.

(** ** Presence events on the client *)

(** C6, as stated, fails.  The handler does not compare the fetched
    snapshot with the local one: it announces the attendee of the event and
    nobody else.  Here Bob and Carol are both new in the fetched snapshot;
    the event is Bob's, and no notification for Carol is shown. *)
Lemma newcomers_not_all_announced :
  ~ announcesNewcomers "att-me" rosterOfOne rosterOfThree
      (App.attendeeIdPresenceHandler "att-me" rosterOfOne "att-bob" true
         (App.FetchedData (Some rosterOfThree)) rosterOfOne).
Proof.
  intros H.
  specialize (H "att-carol" "Carol" eq_refl eq_refl ltac:(discriminate)).
  cbn in H. apply list_elem_of_singleton in H. discriminate H.
Qed.

(** C6, as the code has it.  On a presence event with [present = true] the
    roster is fetched again.  When the answer carries a roster, it replaces
    the local snapshot, and exactly one notification is shown, for the
    attendee of the event, named after the fetched roster ([Someone] when
    it has no name there), unless that attendee is the local client;
    whether the attendee was already in the local snapshot plays no part.
    When the request fails or the answer carries no roster, nothing is
    shown and the local snapshot stays. *)
Theorem presence_join_announces_event_attendee (myAttendeeId : string)
    (attendeeRoster : Roster) (attendeeId : string) (fetched : App.Fetched)
    (prev : Roster) :
  let h := App.attendeeIdPresenceHandler myAttendeeId attendeeRoster
             attendeeId true fetched prev in
  (forall roster, fetched = App.FetchedData (Some roster) ->
     App.roster h = roster
     /\ (attendeeId <> myAttendeeId ->
         App.shown h =
           [(App.orSomeone (roster !! attendeeId) ++ " joined", "join")])
     /\ (attendeeId = myAttendeeId -> App.shown h = []))
  /\ ((forall roster, fetched <> App.FetchedData (Some roster)) ->
      App.roster h = prev /\ App.shown h = [])
  /\ (forall toast, toast ∈ App.shown h ->
        attendeeId <> myAttendeeId
        /\ exists roster,
             fetched = App.FetchedData (Some roster)
             /\ toast = (App.orSomeone (roster !! attendeeId) ++ " joined", "join")).
Proof.
  unfold App.attendeeIdPresenceHandler.
  destruct fetched as [|[roster|]]; cbn.
  - split; [intros r [=]|]. split; [auto|]. intros toast Hin. inversion Hin.
  - destruct (String.eqb_spec attendeeId myAttendeeId) as [Heq|Hne].
    + split.
      * intros r [= <-]. repeat split; auto. intros Hne. contradiction.
      * split; [intros Hno; exfalso; exact (Hno roster eq_refl)|].
        intros toast Hin. inversion Hin.
    + split.
      * intros r [= <-]. repeat split; auto. intros Heq. contradiction.
      * split; [intros Hno; exfalso; exact (Hno roster eq_refl)|].
        intros toast Hin. apply list_elem_of_singleton in Hin as ->.
        split; [exact Hne|]. exists roster. auto.
  - split; [intros r [=]|]. split; [auto|]. intros toast Hin. inversion Hin.
Qed.

Lemma presence_join_announces_event_attendee_witness :
  App.shown
    (App.attendeeIdPresenceHandler "att-me" rosterOfOne "att-bob" true
       (App.FetchedData (Some rosterOfThree)) rosterOfOne)
    = [("Bob joined", "join")]
  /\ App.roster
       (App.attendeeIdPresenceHandler "att-me" rosterOfOne "att-bob" true
          App.FetchFailed rosterOfOne)
     = rosterOfOne.
Proof.
  split.
  - refine (proj1 (proj2 (proj1
      (presence_join_announces_event_attendee "att-me" rosterOfOne "att-bob"
         (App.FetchedData (Some rosterOfThree)) rosterOfOne)
      rosterOfThree eq_refl)) _).
    discriminate.
  - refine (proj1 (proj1 (proj2
      (presence_join_announces_event_attendee "att-me" rosterOfOne "att-bob"
         App.FetchFailed rosterOfOne)) _)).
    intros roster. discriminate.
Defined.

(** The handler on a presence event with [present = false], as a function
    of the roster its closure holds ([attendeeRoster]) and of the roster
    state the removal is applied to ([prev]): the name is looked up in the
    former ([Someone] when the attendee is not in it), one [left]
    notification is shown, and the attendee is removed from the latter.
    Nothing can fail on this path.  Handling the same event again shows the
    same notification and leaves the roster state as the first handling
    left it; on a roster that lacks the attendee the removal changes
    nothing. *)
Lemma presence_leave_idempotent (myAttendeeId : string)
    (attendeeRoster : Roster) (attendeeId : string) (fetched fetched' : App.Fetched)
    (prev : Roster) :
  let h := App.attendeeIdPresenceHandler myAttendeeId attendeeRoster
             attendeeId false fetched prev in
  let h' := App.attendeeIdPresenceHandler myAttendeeId attendeeRoster
              attendeeId false fetched' (App.roster h) in
  App.shown h =
    [(App.orSomeone (attendeeRoster !! attendeeId) ++ " left", "leave")]
  /\ (attendeeRoster !! attendeeId = None ->
      App.shown h = [("Someone left", "leave")])
  /\ App.roster h = delete attendeeId prev
  /\ App.roster h !! attendeeId = None
  /\ App.failed h = false
  /\ App.failed h' = false
  /\ App.roster h' = App.roster h
  /\ (prev !! attendeeId = None -> App.roster h = prev).
Proof.
  cbn. repeat split.
  - intros ->. reflexivity.
  - apply lookup_delete_eq.
  - apply delete_id. apply lookup_delete_eq.
  - apply delete_id.
Qed.

(** C7 at the input where the code departs from it.  A freshly loaded page
    joins ROOM1, where Alice already is: the page now holds the roster of
    the response, with Alice and itself on it.  Then Alice leaves.  The
    line commented "Get the name before removing from roster" reads
    [attendeeRoster] of the render in which the form was submitted, which
    is still empty: the notification is "Someone left", although the roster
    the page holds lists Alice (read there, the same line gives "Alice
    left").  The rest is as claimed: Alice is removed from the roster the
    page holds, nothing fails, and handling the event again leaves that
    roster as it is. *)
Theorem listed_leaver_announced_as_someone :
  let st := snd (fst (submit None (chime "2") (Resolved tt)
                        (room1WithAlice, Page.initial "Bob" "ROOM1" "9762"))) in
  let held := Page.attendeeRoster st in
  let h := Page.presence bobsSession "att-1" false App.FetchFailed held in
  Page.sessionRef st = Some bobsSession
  /\ held = {[ "att-1" := "Alice"; "att-2" := "Bob" ]}
  /\ App.shown h = [("Someone left", "leave")]
  /\ App.shown (App.attendeeIdPresenceHandler "att-2" held "att-1" false
                  App.FetchFailed held)
     = [("Alice left", "leave")]
  /\ App.roster h = {[ "att-2" := "Bob" ]}
  /\ App.failed h = false
  /\ App.roster (Page.presence bobsSession "att-1" false App.FetchFailed
                   (App.roster h))
     = App.roster h.
Proof. cbv zeta. repeat split; vm_compute; reflexivity. Qed.

(** ** The notification queue *)

(** C8 at the input where the code departs from it.  The identifier is the
    clock reading [Date.now()], so two notifications pushed within the same
    millisecond carry the same identifier; the first timeout to fire then
    removes both entries, and the second finds nothing left to remove. *)
Theorem same_millisecond_toasts_collide :
  map App.id (App.notifications twoToastsAtOnce) = [1000; 1000]
  /\ ~ NoDup (map App.id (App.notifications twoToastsAtOnce))
  /\ map App.due (App.timeouts twoToastsAtOnce) = [4000; 4000]
  /\ App.notifications (App.fire twoToastsAtOnce) = []
  /\ App.notifications (App.fire (App.fire twoToastsAtOnce))
     = App.notifications (App.fire twoToastsAtOnce).
Proof.
  repeat split.
  intros Hnd. apply NoDup_cons in Hnd as [Hnotin _].
  apply Hnotin. left.
Qed.

(** Pushing appends, and sets one timeout three seconds ahead that holds
    the identifier of the entry pushed. *)
Lemma showAll_appends (pushes : list (Z * (string * string))) :
  forall st : App.Toasts,
    App.notifications (App.showAll pushes st) =
      (App.notifications st ++ map App.entryOf pushes)%list
    /\ App.timeouts (App.showAll pushes st) =
         (App.timeouts st ++ map App.timeoutOf pushes)%list.
Proof.
  induction pushes as [|[now [msg ty]] pushes IH]; intros st.
  - cbn. rewrite !app_nil_r. auto.
  - unfold App.showAll in *. cbn [fold_left fst snd].
    destruct (IH (App.showNotification now msg ty st)) as [-> ->].
    cbn [App.showNotification App.notifications App.timeouts map].
    rewrite <- !app_assoc. auto.
Qed.

Lemma entryOf_ids (pushes : list (Z * (string * string))) :
  map App.id (map App.entryOf pushes) = map fst pushes.
Proof. rewrite map_map. reflexivity. Qed.

(** Removal by identifier takes out the one entry that carries it, when
    identifiers are pairwise distinct. *)
Lemma dismiss_one (before after : list App.Notification) (n : App.Notification) :
  NoDup (map App.id (before ++ n :: after)%list) ->
  App.dismiss (App.id n) (before ++ n :: after)%list = (before ++ after)%list.
Proof.
  intros Hnd. unfold App.dismiss.
  rewrite List.filter_app. cbn [List.filter]. rewrite Z.eqb_refl. cbn [negb].
  rewrite map_app in Hnd. cbn [map] in Hnd.
  apply NoDup_app in Hnd as (_ & Hcross & Hnd).
  apply NoDup_cons in Hnd as [Hn _].
  assert (Hkeep : forall l : list App.Notification,
             App.id n ∉ map App.id l ->
             List.filter (fun m => negb (App.id m =? App.id n)) l = l).
  { induction l as [|m l IHl]; intros Hl; [reflexivity|].
    cbn [List.filter]. cbn [map] in Hl. apply not_elem_of_cons in Hl as [Hm Hl].
    destruct (Z.eqb_spec (App.id m) (App.id n)) as [Heq|_]; [congruence|].
    cbn [negb]. rewrite (IHl Hl). reflexivity. }
  rewrite (Hkeep after Hn). f_equal. apply Hkeep.
  intros Hin. apply (Hcross _ Hin). left.
Qed.

(** Off that input the queue behaves as specified: notifications pushed at
    pairwise distinct clock readings carry pairwise distinct identifiers,
    and the first timeout to fire removes the entry it was set for and no
    other. *)
Lemma distinct_readings_distinct_ids (pushes : list (Z * (string * string))) :
  NoDup (map fst pushes) ->
  NoDup (map App.id (App.notifications (App.showAll pushes App.noToasts))).
Proof.
  intros Hnd. destruct (showAll_appends pushes App.noToasts) as [-> _].
  cbn [App.noToasts App.notifications app]. rewrite entryOf_ids. exact Hnd.
Qed.

Lemma distinct_readings_own_removal (p : Z * (string * string))
    (pushes : list (Z * (string * string))) :
  NoDup (map fst (p :: pushes)) ->
  App.notifications (App.fire (App.showAll (p :: pushes) App.noToasts)) =
    map App.entryOf pushes.
Proof.
  intros Hnd. unfold App.fire.
  destruct (showAll_appends (p :: pushes) App.noToasts) as [-> ->].
  cbn [App.noToasts App.notifications App.timeouts app map App.timeoutOf App.target].
  rewrite <- entryOf_ids in Hnd. cbn [map] in Hnd.
  exact (dismiss_one [] (map App.entryOf pushes) (App.entryOf p) Hnd).
Qed.

(** ** Requests for different titles *)

(** Splits what a case lemma of a handler says into its cases. *)
Ltac split_cases H :=
  cbv zeta in H;
  repeat match type of H with
         | _ \/ _ => destruct H as [H|H]
         end;
  repeat match goal with
         | H : _ /\ _ |- _ => destruct H
         | H : exists _, _ |- _ => destruct H
         | H : _ \/ _ |- _ => destruct H
         end.

(** A request leaves the entries of the other titles alone. *)
Lemma serve_frame env (r : Request) (P : Provider) (meetings : Meetings) title :
  requestTitle r <> title ->
  table (serve P (route env r) meetings) !! title = meetings !! title.
Proof.
  intros Hne. destruct r as [t|t|t name|t mode|t]; cbn [route requestTitle] in *.
  - pose proof (serve_create_cases meetings t P) as H. split_cases H;
      match goal with H : serve _ _ _ = _ |- _ => rewrite H end;
      cbn [said table]; rewrite ?lookup_insert_ne by exact Hne; reflexivity.
  - destruct (serve_roster_cases meetings t P) as (-> & _). reflexivity.
  - pose proof (serve_join_cases meetings t name P) as H. split_cases H;
      match goal with H : serve _ _ _ = _ |- _ => rewrite H end;
      unfold joined; cbn [said table];
      rewrite ?lookup_insert_ne by exact Hne; reflexivity.
  - pose proof (serve_start_cases env meetings t mode P) as H. split_cases H;
      match goal with H : serve _ _ _ = _ |- _ => rewrite H end;
      cbn [said table]; rewrite ?lookup_insert_ne by exact Hne; reflexivity.
  - pose proof (serve_stop_cases meetings t P) as H. split_cases H;
      match goal with H : serve _ _ _ = _ |- _ => rewrite H end;
      cbn [said table]; rewrite ?lookup_insert_ne by exact Hne; reflexivity.
Qed.

(** What a request does depends on the entry of its own title only. *)
Lemma getMeeting_local (m m' : Meetings) title :
  m !! title = m' !! title -> getMeeting m title = getMeeting m' title.
Proof. unfold getMeeting. intros ->. reflexivity. Qed.

Lemma serve_local env (r : Request) (P : Provider) (m m' : Meetings) :
  m !! requestTitle r = m' !! requestTitle r ->
  seen (serve P (route env r) m) = seen (serve P (route env r) m')
  /\ table (serve P (route env r) m) !! requestTitle r
     = table (serve P (route env r) m') !! requestTitle r.
Proof.
  intros Heq.
  destruct r as [t|t|t name|t mode|t]; cbn [route requestTitle] in *.
  - pose proof (serve_create_cases m t P) as H.
    pose proof (serve_create_cases m' t P) as H'.
    split_cases H; split_cases H'.
    all: try congruence.
    all: repeat match goal with H : serve _ _ _ = _ |- _ => rewrite H; clear H end.
    all: unfold seen; cbn [said table response exchanges].
    all: rewrite ?lookup_insert_eq.
    all: split; congruence.
  - pose proof (serve_roster_cases m t P) as H.
    pose proof (serve_roster_cases m' t P) as H'.
    split_cases H; split_cases H'.
    all: try congruence.
    all: unfold seen.
    all: split; congruence.
  - pose proof (serve_join_cases m t name P) as H.
    pose proof (serve_join_cases m' t name P) as H'.
    split_cases H; split_cases H'.
    all: try congruence.
    all: repeat match goal with H : serve _ _ _ = _ |- _ => rewrite H; clear H end.
    all: unfold seen, joined; cbn [said table response exchanges].
    all: rewrite ?lookup_insert_eq.
    all: split; congruence.
  - unfold serve, api_record_start.
    rewrite <- (getMeeting_local m m' t Heq).
    destruct (getMeeting_cases m t)
      as [(d & Hd & Hget)|[(Hd & Hi & Hget)|(Hd & Hi & Hget)]]; rewrite Hget.
    + destruct (truthy (pipelineId d)); [split; [reflexivity|exact Heq]|].
      cbn [complete]. rewrite <- (getMeeting_local m m' t Heq), Hget.
      destruct (createMediaCapturePipeline P _) as [p|msg];
        unfold seen; cbn [logged complete table response exchanges];
        rewrite ?lookup_insert_eq; split; congruence.
    + destruct env as [a|]; [destruct (truthy_string a)|];
        (split; [reflexivity|exact Heq]).
    + split; [reflexivity|exact Heq].
  - pose proof (serve_stop_cases m t P) as H.
    pose proof (serve_stop_cases m' t P) as H'.
    assert (Hrec : recording m t = recording m' t)
      by (unfold recording; rewrite Heq; reflexivity).
    split_cases H; split_cases H'.
    all: try congruence.
    all: repeat match goal with H : serve _ _ _ = _ |- _ => rewrite H; clear H end.
    all: unfold seen; cbn [said table response exchanges].
    all: rewrite ?lookup_insert_eq.
    all: split; congruence.
Qed.

Lemma serveAll_local env (calls : list Call) title :
  forall m m' : Meetings,
    m !! title = m' !! title ->
    fst (serveAll env calls m) !! title
      = fst (serveAll env (List.filter (about title) calls) m') !! title
    /\ seenAbout title calls (snd (serveAll env calls m))
       = map seen (snd (serveAll env (List.filter (about title) calls) m')).
Proof.
  induction calls as [|[r P] calls IH]; intros m m' Heq; [split; [exact Heq|reflexivity]|].
  cbn [serveAll List.filter].
  destruct (about title (r, P)) eqn:Habout.
  - assert (Hr : requestTitle r = title) by (apply String.eqb_eq; exact Habout).
    rewrite <- Hr in Heq.
    destruct (serve_local env r P m m' Heq) as [Hseen Htable].
    rewrite Hr in Htable. cbn [serveAll].
    specialize (IH (table (serve P (route env r) m))
                   (table (serve P (route env r) m')) Htable).
    destruct (serveAll env calls (table (serve P (route env r) m))) as [final results].
    destruct (serveAll env (List.filter (about title) calls)
                (table (serve P (route env r) m'))) as [final' results'].
    cbn [fst snd seenAbout map] in *. rewrite Habout.
    destruct IH as [-> ->]. rewrite Hseen. auto.
  - assert (Hr : requestTitle r <> title) by (apply String.eqb_neq; exact Habout).
    assert (Hkeep : table (serve P (route env r) m) !! title = m' !! title).
    { rewrite (serve_frame env r P m title Hr). exact Heq. }
    specialize (IH (table (serve P (route env r) m)) m' Hkeep).
    destruct (serveAll env calls (table (serve P (route env r) m))) as [final results].
    cbn [fst snd seenAbout] in *. rewrite Habout. exact IH.
Qed.

(** X1.  Rooms do not interfere.  In a sequential history, the requests
    that name a title are answered, send the provider the commands, and
    leave the entry of the title, exactly as if the requests naming other
    titles had never been made. *)
Theorem titles_do_not_interfere env (calls : list Call) (meetings : Meetings)
    (title : string) :
  let own := List.filter (about title) calls in
  seenAbout title calls (snd (serveAll env calls meetings))
    = map seen (snd (serveAll env own meetings))
  /\ fst (serveAll env calls meetings) !! title
     = fst (serveAll env own meetings) !! title.
Proof.
  intros own.
  destruct (serveAll_local env calls title meetings meetings eq_refl) as [Ht Hs].
  split; [exact Hs|exact Ht].
Qed.

(** ** What a sequential history keeps *)

Lemma extends_refl (d : MeetingData) : extends d d.
Proof. split; auto. Qed.

Lemma lasting_refl (meetings : Meetings) : lasting meetings meetings.
Proof. intros t d Hd. exists d. split; [exact Hd|apply extends_refl]. Qed.

Lemma lasting_trans (m1 m2 m3 : Meetings) :
  lasting m1 m2 -> lasting m2 m3 -> lasting m1 m3.
Proof.
  intros H12 H23 t d Hd.
  destruct (H12 t d Hd) as (d2 & Hd2 & [Hm2 Ha2]).
  destruct (H23 t d2 Hd2) as (d3 & Hd3 & [Hm3 Ha3]).
  exists d3. split; [exact Hd3|]. split; [congruence|auto].
Qed.

Lemma lasting_fresh (meetings : Meetings) title d :
  meetings !! title = None -> lasting meetings (<[title := d]> meetings).
Proof.
  intros Hnone t d0 Hd0. exists d0. split; [|apply extends_refl].
  rewrite lookup_insert_ne by congruence. exact Hd0.
Qed.

Lemma lasting_own (meetings : Meetings) title d d' :
  meetings !! title = Some d -> extends d d' ->
  lasting meetings (<[title := d']> meetings).
Proof.
  intros Hd Hext t d0 Hd0. destruct (decide (title = t)) as [<-|Hne].
  - exists d'. rewrite lookup_insert_eq. split; [reflexivity|]. congruence.
  - exists d0. rewrite lookup_insert_ne by exact Hne.
    split; [exact Hd0|apply extends_refl].
Qed.

Lemma extends_attend (d : MeetingData) attendeeId name :
  extends d (withAttendees d (<[attendeeId := name]> (default ∅ (attendees d)))).
Proof.
  split; [reflexivity|]. intros a Ha. cbn [withAttendees attendees default from_option id].
  destruct (decide (attendeeId = a)) as [<-|Hne].
  - rewrite lookup_insert_eq. eauto.
  - rewrite lookup_insert_ne by exact Hne. exact Ha.
Qed.

(** Serving a request keeps every entry's Meeting and removes nobody from
    a roster. *)
Lemma serve_lasting env (r : Request) (P : Provider) (meetings : Meetings) :
  lasting meetings (table (serve P (route env r) meetings)).
Proof.
  destruct r as [t|t|t name|t mode|t]; cbn [route].
  - pose proof (serve_create_cases meetings t P) as H. split_cases H;
      match goal with H : serve _ _ _ = _ |- _ => rewrite H end;
      cbn [said table]; auto using lasting_refl, lasting_fresh.
  - destruct (serve_roster_cases meetings t P) as (-> & _). apply lasting_refl.
  - pose proof (serve_join_cases meetings t name P) as H. split_cases H;
      match goal with H : serve _ _ _ = _ |- _ => rewrite H end;
      unfold joined; cbn [said table]; auto using lasting_refl, lasting_fresh.
    + eapply lasting_own; [eassumption|apply extends_attend].
    + eapply lasting_trans; [apply lasting_fresh; eassumption|].
      eapply lasting_own; [apply lookup_insert_eq|apply extends_attend].
  - pose proof (serve_start_cases env meetings t mode P) as H. split_cases H;
      match goal with H : serve _ _ _ = _ |- _ => rewrite H end;
      cbn [said table]; auto using lasting_refl.
    eapply lasting_own; [eassumption|]. split; [reflexivity|auto].
  - pose proof (serve_stop_cases meetings t P) as H. split_cases H;
      match goal with H : serve _ _ _ = _ |- _ => rewrite H end;
      cbn [said table]; auto using lasting_refl.
    eapply lasting_own; [eassumption|]. split; [reflexivity|auto].
Qed.

Lemma serveAll_lasting env (calls : list Call) :
  forall meetings : Meetings, lasting meetings (fst (serveAll env calls meetings)).
Proof.
  induction calls as [|[r P] calls IH]; intros meetings; [apply lasting_refl|].
  cbn [serveAll]. specialize (IH (table (serve P (route env r) meetings))).
  destruct (serveAll env calls _) as [final results]. cbn [fst] in *.
  exact (lasting_trans _ _ _ (serve_lasting env r P meetings) IH).
Qed.

Lemma lasting_meetingOf (before after : Meetings) title m :
  lasting before after -> meetingOf before title = Some m ->
  meetingOf after title = Some m.
Proof.
  unfold meetingOf. intros Hl Hm.
  destruct (before !! title) as [d|] eqn:Hd; [|discriminate].
  destruct (Hl title d Hd) as (d' & -> & [Hsame _]).
  cbn in *. congruence.
Qed.

(** The Meeting a response carries is the one the table stores for the
    title of the request. *)
Lemma serve_sends_stored env (r : Request) (P : Provider) (meetings : Meetings) m :
  meetingSent (serve P (route env r) meetings) = Some m ->
  meetingOf (table (serve P (route env r) meetings)) (requestTitle r) = Some m.
Proof.
  unfold meetingOf.
  destruct r as [t|t|t name|t mode|t]; cbn [route requestTitle].
  - pose proof (serve_create_cases meetings t P) as H. split_cases H;
      match goal with H : serve _ _ _ = _ |- _ => rewrite H end;
      unfold meetingSent; cbn [said table response json error body];
      try discriminate; intros [= <-].
    + match goal with H : meetings !! t = Some _ |- _ => rewrite H end. reflexivity.
    + rewrite lookup_insert_eq. reflexivity.
  - pose proof (serve_roster_cases meetings t P) as H. split_cases H;
      unfold meetingSent;
      match goal with H : response _ = _ |- _ => rewrite H end; discriminate.
  - pose proof (serve_join_cases meetings t name P) as H. split_cases H;
      match goal with H : serve _ _ _ = _ |- _ => rewrite H end;
      unfold meetingSent, joined; cbn [said table response json error body];
      try discriminate; intros [= <-]; rewrite lookup_insert_eq; reflexivity.
  - pose proof (serve_start_cases env meetings t mode P) as H. split_cases H;
      match goal with H : serve _ _ _ = _ |- _ => rewrite H end;
      unfold meetingSent; cbn [said table response json error body]; discriminate.
  - pose proof (serve_stop_cases meetings t P) as H. split_cases H;
      match goal with H : serve _ _ _ = _ |- _ => rewrite H end;
      unfold meetingSent; cbn [said table response json error body]; discriminate.
Qed.

(** X2.  One Meeting per title.  In a sequential history from any table,
    every response of a create or join request for a title carries one and
    the same Meeting, the one the table stores for the title at the end;
    and a Meeting the table stored at the start is still the stored one at
    the end. *)
Theorem callers_share_one_meeting env (calls : list Call) (meetings : Meetings)
    (title : string) :
  let final := fst (serveAll env calls meetings) in
  let results := snd (serveAll env calls meetings) in
  Forall (fun m => meetingOf final title = Some m) (meetingsSent title calls results)
  /\ (forall m, meetingOf meetings title = Some m -> meetingOf final title = Some m).
Proof.
  cbv zeta. split.
  - revert meetings. induction calls as [|[r P] calls IH]; intros meetings;
      [constructor|].
    cbn [serveAll].
    pose proof (serveAll_lasting env calls (table (serve P (route env r) meetings)))
      as Hlast.
    specialize (IH (table (serve P (route env r) meetings))).
    destruct (serveAll env calls _) as [final results]. cbn [fst snd meetingsSent] in *.
    destruct (about title (r, P)) eqn:Habout; [|exact IH].
    destruct (meetingSent (serve P (route env r) meetings)) as [m|] eqn:Hsent;
      [|exact IH].
    constructor; [|exact IH].
    apply (lasting_meetingOf _ _ _ _ Hlast).
    apply String.eqb_eq in Habout. cbn [fst] in Habout. rewrite <- Habout.
    apply serve_sends_stored. exact Hsent.
  - intros m. apply lasting_meetingOf, serveAll_lasting.
Qed.

(** X3.  The server never takes anyone off a roster.  An attendee on the
    roster of a title is on it after any sequential history of requests,
    whatever the requests are and whatever the provider answers. *)
Theorem server_never_removes_attendees env (calls : list Call)
    (meetings : Meetings) (title attendeeId : string) :
  is_Some (rosterOf meetings title !! attendeeId) ->
  is_Some (rosterOf (fst (serveAll env calls meetings)) title !! attendeeId).
Proof.
  unfold rosterOf. intros Hin.
  destruct (meetings !! title) as [d|] eqn:Hd;
    [|rewrite lookup_empty in Hin; destruct Hin; discriminate].
  destruct (serveAll_lasting env calls meetings title d Hd) as (d' & -> & [_ Hkeep]).
  apply Hkeep, Hin.
Qed.

Lemma server_never_removes_attendees_witness :
  is_Some (rosterOf (fst (serveAll None room1Scenario room1WithAlice)) "ROOM1"
             !! "att-1").
Proof.
  apply (server_never_removes_attendees None room1Scenario room1WithAlice
           "ROOM1" "att-1").
  exists "Alice". reflexivity.
Defined.

(** What a join answered with its [JoinInfo] stores. *)
Lemma join_stores (meetings : Meetings) title name (P : Provider) m a roster :
  body (response (serve P (api_join title name) meetings)) = JoinBody m a roster ->
  exists d, table (serve P (api_join title name) meetings) !! title = Some d
            /\ meeting d = m /\ attendees d = Some roster
            /\ roster !! AttendeeId a = Some name.
Proof.
  intros Hbody. pose proof (serve_join_cases meetings title name P) as H.
  split_cases H;
    match goal with H : serve _ _ _ = _ |- _ => rewrite H in Hbody |- * end;
    cbn [said response table json error body] in Hbody |- *;
    try discriminate; injection Hbody as <- <- <-; unfold joined;
    rewrite lookup_insert_eq; eexists; (split; [reflexivity|]);
    cbn [withAttendees meeting attendees newMeetingData default from_option id];
    rewrite ?insert_empty, ?lookup_singleton_eq, ?lookup_insert_eq; auto.
Qed.

Lemma join_then_roster_keeps (meetings : Meetings) title name (P : Provider)
    m a roster :
  body (response (serve P (api_join title name) meetings)) = JoinBody m a roster ->
  roster !! AttendeeId a = Some name
  /\ rosterOf (table (serve P (api_join title name) meetings)) title = roster.
Proof.
  intros Hbody.
  destruct (join_stores meetings title name P m a roster Hbody)
    as (d & Hd & _ & Ha & Hname).
  split; [exact Hname|]. unfold rosterOf. rewrite Hd, Ha. reflexivity.
Qed.

(** X4.  Join and roster agree.  When a join is answered with its
    [JoinInfo], the roster of the response lists the new attendee under the
    name given, the table stores the Meeting of the response and that
    roster for the title, and a roster request for the title made next
    returns the very same roster. *)
Theorem join_then_roster_round_trip (meetings : Meetings) (title name : string)
    (P P' : Provider) (m : Meeting) (a : Attendee) (roster : Roster) :
  let res := serve P (api_join title name) meetings in
  body (response res) = JoinBody m a roster ->
  roster !! AttendeeId a = Some name
  /\ meetingOf (table res) title = Some m
  /\ rosterOf (table res) title = roster
  /\ serve P' (api_roster title) (table res)
     = said (table res) (json (RosterBody roster)) [].
Proof.
  intros res Hbody.
  pose proof (join_stores meetings title name P m a roster Hbody) as Hstored.
  fold res in Hstored.
  destruct Hstored as (d & Hd & Hm & Ha & Hname).
  split; [exact Hname|]. split; [unfold meetingOf; rewrite Hd, <- Hm; reflexivity|].
  split; [unfold rosterOf; rewrite Hd, Ha; reflexivity|].
  unfold serve, api_roster. rewrite (getMeeting_own _ _ _ Hd), Ha. reflexivity.
Qed.

Lemma join_then_roster_round_trip_witness :
  let res := serve (chime "2") (api_join "ROOM1" "Bob") room1WithAlice in
  rosterOf (table res) "ROOM1" = {[ "att-1" := "Alice"; "att-2" := "Bob" ]}
  /\ serve outage (api_roster "ROOM1") (table res)
     = said (table res)
         (json (RosterBody {[ "att-1" := "Alice"; "att-2" := "Bob" ]})) [].
Proof.
  cbv zeta.
  pose proof (join_then_roster_round_trip room1WithAlice "ROOM1" "Bob"
                (chime "2") outage (sampleMeeting "1") (sampleAttendee "2")
                {[ "att-1" := "Alice"; "att-2" := "Bob" ]} eq_refl) as H.
  split; [exact (proj1 (proj2 (proj2 H)))|exact (proj2 (proj2 (proj2 H)))].
Defined.



(** ** Every request is answered, once *)

Lemma settle_counts (r : Request) (others : list (Request * Task))
    (log : list (Request * Exchange)) (sv : Server) (next : Meetings * Task) :
  (length (answered (settle r others log sv next))
   + length (inflight (settle r others log sv next))
   = S (length (answered sv) + length others))%nat.
Proof.
  destruct next as [m t].
  destruct t; cbn [settle answered inflight]; rewrite length_app; cbn [length]; lia.
Qed.

Lemma step_counts env (sv : Server) (e : Event) :
  (length (answered (step env sv e)) + length (inflight (step env sv e))
   = (if arrival e then 1 else 0) + (length (answered sv) + length (inflight sv)))%nat.
Proof.
  destruct e as [r|i P]; cbn [step arrival].
  - rewrite settle_counts. lia.
  - destruct (inflight sv !! i) as [[r t]|] eqn:Hi; [|lia].
    destruct (resume P t (store sv)) as [[x next]|]; [|lia].
    rewrite settle_counts, length_delete by eauto.
    apply lookup_lt_Some in Hi. lia.
Qed.

Lemma run_counts env (events : list Event) :
  forall sv : Server,
    (length (answered (fold_left (step env) events sv))
     + length (inflight (fold_left (step env) events sv))
     = arrivals events + (length (answered sv) + length (inflight sv)))%nat.
Proof.
  unfold arrivals.
  induction events as [|e events IH]; intros sv; [reflexivity|].
  cbn [fold_left List.filter]. rewrite IH, step_counts.
  destruct (arrival e); cbn [length]; lia.
Qed.

Lemma owes_sum (ns : list nat) (tasks : list (Request * Task)) :
  owes ns tasks -> (sum_list ns <= 2 * length tasks)%nat.
Proof.
  induction 1 as [|n p ns tasks (_ & _ & Hn) _ IH]; cbn [sum_list_with length];
    unfold id in *; lia.
Qed.

Lemma settle_owes (r : Request) (others : list (Request * Task))
    (log : list (Request * Exchange)) (sv : Server) (next : Meetings * Task)
    (ns : list nat) (n : nat) :
  owes ns others -> within n (snd next) -> (n <= 2)%nat ->
  exists ns', owes ns' (inflight (settle r others log sv next))
              /\ (sum_list ns' <= sum_list ns + n)%nat.
Proof.
  intros Hothers Hn Hle. destruct next as [m t]. cbn [snd] in Hn.
  destruct t; cbn [settle inflight];
    [exists ns; split; [exact Hothers|lia]|..];
    (exists (ns ++ [n])%list; split;
     [apply Forall2_app; [exact Hothers|];
      constructor; [cbn [snd]; auto|constructor]
     |rewrite sum_list_with_app; cbn [sum_list_with]; unfold id; lia]).
Qed.

Lemma resume_within (P : Provider) (t : Task) (meetings : Meetings) n :
  within n t -> suspended t = true ->
  exists x next n', resume P t meetings = Some (x, next)
                    /\ n = S n' /\ within n' (snd next).
Proof.
  intros Hn Hs. destruct Hn as [n r|n c k Hk|n c k Hk|n c k Hk|n c k Hk];
    [discriminate|..]; cbn [resume]; eauto 10.
Qed.

Lemma step_owes env (sv : Server) (e : Event) (ns : list nat) :
  owes ns (inflight sv) -> exists ns', owes ns' (inflight (step env sv e)).
Proof.
  intros Hall. destruct e as [r|i P]; cbn [step].
  - destruct (settle_owes r (inflight sv) (traffic sv) sv (route env r (store sv))
                ns 2 Hall (route_within env r (store sv)) (le_n 2)) as (ns' & H & _).
    eauto.
  - destruct (inflight sv !! i) as [[r t]|] eqn:Hi; [|eauto].
    destruct (Forall2_lookup_r _ _ _ _ _ Hall Hi) as (n & Hn & Hw & Hs & Hle).
    cbn [snd] in Hw, Hs.
    destruct (resume_within P t (store sv) n Hw Hs) as (x & next & n' & -> & -> & Hw').
    destruct (settle_owes r (delete i (inflight sv)) (traffic sv ++ [(r, x)]) sv next
                (delete i ns) n' (Forall2_delete _ _ _ i Hall) Hw' ltac:(lia))
      as (ns' & H & _).
    eauto.
Qed.

Lemma run_owes env (events : list Event) :
  forall (sv : Server) (ns : list nat),
    owes ns (inflight sv) ->
    exists ns', owes ns' (inflight (fold_left (step env) events sv)).
Proof.
  induction events as [|e events IH]; intros sv ns Hall; [eauto|].
  cbn [fold_left]. destruct (step_owes env sv e ns Hall) as (ns' & Hall'). eauto.
Qed.

(** Settling the oldest command in flight uses up one of the commands owed. *)
Lemma oldest_settles env (sv : Server) (P : Provider) (ns : list nat) :
  owes ns (inflight sv) -> inflight sv <> [] ->
  exists ns', owes ns' (inflight (step env sv (Settles 0 P)))
              /\ (S (sum_list ns') <= sum_list ns)%nat.
Proof.
  intros Hall Hbusy. cbn [step].
  destruct (inflight sv) as [|[r t] rest] eqn:Hfl; [congruence|].
  apply Forall2_cons_inv_r in Hall as (n & ns0 & (Hw & Hs & Hle) & Hrest & ->).
  cbn [snd] in Hw, Hs. cbn [lookup list_lookup].
  destruct (resume_within P t (store sv) n Hw Hs) as (x & next & n' & -> & -> & Hw').
  cbn [delete list_delete].
  destruct (settle_owes r rest (traffic sv ++ [(r, x)]) sv next ns0 n' Hrest Hw'
              ltac:(lia)) as (ns' & H & Hsum).
  exists ns'. split; [exact H|]. cbn [sum_list_with]. unfold id in *. lia.
Qed.

Lemma drains env (Ps : list Provider) :
  forall (sv : Server) (ns : list nat),
    owes ns (inflight sv) -> (sum_list ns <= length Ps)%nat ->
    inflight (fold_left (step env) (map (Settles 0) Ps) sv) = [].
Proof.
  induction Ps as [|P Ps IH]; intros sv ns Hall Hsum.
  - cbn [map fold_left]. destruct Hall as [|n p ns tasks (Hw & Hs & _) _];
      [reflexivity|].
    cbn [sum_list_with length] in Hsum. unfold id in Hsum.
    assert (n = 0%nat) as -> by lia.
    inversion Hw; subst; match goal with H : _ = snd p |- _ => rewrite <- H in Hs end;
      discriminate.
  - cbn [map fold_left].
    destruct (inflight sv) as [|p rest] eqn:Hfl.
    + assert (Hidle : step env sv (Settles 0 P) = sv)
        by (cbn [step]; rewrite Hfl; reflexivity).
      rewrite Hidle. apply (IH sv []); [rewrite Hfl; constructor|cbn; lia].
    + destruct (oldest_settles env sv P ns) as (ns' & Hall' & Hless);
        [rewrite Hfl; exact Hall|rewrite Hfl; discriminate|].
      apply (IH _ ns' Hall'). cbn [length] in Hsum. lia.
Qed.

Lemma arrivals_settles (events : list Event) (Ps : list Provider) :
  arrivals (events ++ map (Settles 0) Ps) = arrivals events.
Proof.
  unfold arrivals. rewrite List.filter_app, length_app.
  assert (Hnone : List.filter arrival (map (Settles 0) Ps) = []).
  { induction Ps as [|P Ps IH]; [reflexivity|exact IH]. }
  rewrite Hnone. cbn [length]. lia.
Qed.

(** X7.  Every request is answered.  At any point of any run of the server,
    once the provider has settled the oldest command in flight twice as
    many times as there are handlers awaiting it (whatever it answers each
    time), no handler is left awaiting and every request that arrived has
    its response: a handler awaits the provider twice at most and never
    retries. *)
Theorem every_request_gets_answered env (events : list Event)
    (Ps : list Provider) :
  (2 * length (inflight (schedule env events)) <= length Ps)%nat ->
  let sv := schedule env (events ++ map (Settles 0) Ps) in
  inflight sv = [] /\ length (answered sv) = arrivals events.
Proof.
  intros Hlen sv.
  assert (Hidle : inflight sv = []).
  { subst sv. unfold schedule in *. rewrite fold_left_app.
    destruct (run_owes env events boot []) as (ns & Hall); [constructor|].
    apply (drains env Ps _ ns Hall).
    pose proof (owes_sum _ _ Hall). lia. }
  split; [exact Hidle|].
  pose proof (run_counts env (events ++ map (Settles 0) Ps) boot) as Hcount.
  fold (schedule env (events ++ map (Settles 0) Ps)) in Hcount. fold sv in Hcount.
  rewrite Hidle, arrivals_settles in Hcount.
  cbn [boot answered inflight length] in Hcount. lia.
Qed.

Lemma every_request_gets_answered_witness :
  inflight (schedule None
              ([Arrives (PostJoin "ROOM1" "Alice")]
               ++ map (Settles 0) [chime "1"; chime "2"])) = []
  /\ length (answered (schedule None
                         ([Arrives (PostJoin "ROOM1" "Alice")]
                          ++ map (Settles 0) [chime "1"; chime "2"])))
     = arrivals [Arrives (PostJoin "ROOM1" "Alice")].
Proof.
  apply (every_request_gets_answered None [Arrives (PostJoin "ROOM1" "Alice")]
           [chime "1"; chime "2"]).
  vm_compute. lia.
Defined.

(** ** The account of the SourceArn *)

Lemma split_colon_field (a : string) :
  colonFree a = true -> split_colon a = [a].
Proof.
  induction a as [|c a IH]; [reflexivity|]. cbn [colonFree split_colon].
  destruct (Ascii.eqb c ":"%char); [discriminate|]. cbn [negb andb].
  intros Ha. rewrite (IH Ha). reflexivity.
Qed.

Lemma split_colon_fields (a b : string) :
  colonFree a = true -> split_colon (a ++ ":" ++ b) = a :: split_colon b.
Proof.
  induction a as [|c a IH]; [reflexivity|].
  cbn [colonFree]. destruct (Ascii.eqb c ":"%char) eqn:Hc; [discriminate|].
  cbn [negb andb]. intros Ha.
  change (split_colon (String c (a ++ ":" ++ b)) = String c a :: split_colon b).
  cbn [split_colon]. rewrite Hc, (IH Ha). reflexivity.
Qed.

(** Splitting at the colons undoes joining colon-free fields with
    colons. *)
Lemma split_colon_concat (fields : list string) :
  Forall (fun f => colonFree f = true) fields -> fields <> [] ->
  split_colon (String.concat ":" fields) = fields.
Proof.
  induction 1 as [|f fields Hf Hall IH]; [congruence|]. intros _.
  destruct fields as [|g fields]; [exact (split_colon_field f Hf)|].
  change (String.concat ":" (f :: g :: fields))
    with (f ++ ":" ++ String.concat ":" (g :: fields)).
  rewrite (split_colon_fields _ _ Hf), IH by discriminate. reflexivity.
Qed.

(** X8.  The account of a capture's SourceArn.  When [AWS_ACCOUNT_ID] is
    unset or empty and the MeetingArn is a colon-separated list of fields,
    the SourceArn sent to the provider carries the fifth field of the
    MeetingArn as its account, and the text [undefined] in its place when
    the MeetingArn has fewer than five fields. *)
Theorem source_arn_account_of_meeting (env mode : option string) (m : Meeting)
    (fields : list string) :
  env = None \/ env = Some "" ->
  Forall (fun f => colonFree f = true) fields -> fields <> [] ->
  MeetingArn m = String.concat ":" fields ->
  SourceArn (capturePipelineInput env mode m)
  = "arn:aws:chime::" ++ template (fields !! 4%nat) ++ ":meeting:" ++ MeetingId m.
Proof.
  intros Henv Hfields Hne Harn.
  unfold capturePipelineInput, accountId. cbn [SourceArn].
  rewrite Harn, (split_colon_concat fields Hfields Hne).
  destruct Henv as [-> | ->]; reflexivity.
Qed.

Lemma source_arn_account_of_meeting_witness :
  SourceArn (capturePipelineInput None (Some "grid") (sampleMeeting "1"))
  = "arn:aws:chime::123456789012:meeting:mtg-1"
  /\ SourceArn (capturePipelineInput (Some "") None
                  {| MeetingId := "mtg-1"; MeetingArn := "arn:aws:chime";
                     MediaRegion := "us-east-1" |})
     = "arn:aws:chime::undefined:meeting:mtg-1".
Proof.
  split.
  - apply (source_arn_account_of_meeting None (Some "grid") (sampleMeeting "1")
             ["arn"; "aws"; "chime"; "us-east-1"; "123456789012"; "meeting/mtg-1"]).
    + left. reflexivity.
    + repeat constructor.
    + discriminate.
    + reflexivity.
  - apply (source_arn_account_of_meeting (Some "") None
             {| MeetingId := "mtg-1"; MeetingArn := "arn:aws:chime";
                MediaRegion := "us-east-1" |} ["arn"; "aws"; "chime"]).
    + right. reflexivity.
    + repeat constructor.
    + discriminate.
    + reflexivity.
Defined.

(** ** Generated room identifiers *)

Lemma charAt_chars (n : nat) :
  (n < 36)%nat ->
  exists c, Page.charAt Page.chars n = String c EmptyString
            /\ String.get n Page.chars = Some c.
Proof.
  intros Hn. unfold Page.charAt.
  destruct (String.get n Page.chars) as [c|] eqn:Hget; [eauto|].
  exfalso. revert Hget.
  do 36 (destruct n as [|n]; [discriminate|]). lia.
Qed.

Lemma get_nth_error (s : string) :
  forall n, String.get n s = nth_error (list_ascii_of_string s) n.
Proof.
  induction s as [|c s IH]; intros [|n]; cbn; auto.
Qed.

Lemma chars_distinct : NoDup (list_ascii_of_string Page.chars).
Proof. apply (bool_decide_unpack _). vm_compute. exact I. Qed.

(** The identifier is the eight characters drawn, in order. *)
Lemma generateRoomId_chars (random : nat -> nat) :
  (forall i, (i < 8)%nat -> (random i < 36)%nat) ->
  exists cs,
    Page.generateRoomId random = string_of_list_ascii cs
    /\ length cs = 8%nat
    /\ forall i, (i < 8)%nat -> String.get (random i) Page.chars = cs !! i.
Proof.
  intros Hr.
  destruct (charAt_chars (random 0%nat)) as (c0 & E0 & G0); [apply Hr; lia|].
  destruct (charAt_chars (random 1%nat)) as (c1 & E1 & G1); [apply Hr; lia|].
  destruct (charAt_chars (random 2%nat)) as (c2 & E2 & G2); [apply Hr; lia|].
  destruct (charAt_chars (random 3%nat)) as (c3 & E3 & G3); [apply Hr; lia|].
  destruct (charAt_chars (random 4%nat)) as (c4 & E4 & G4); [apply Hr; lia|].
  destruct (charAt_chars (random 5%nat)) as (c5 & E5 & G5); [apply Hr; lia|].
  destruct (charAt_chars (random 6%nat)) as (c6 & E6 & G6); [apply Hr; lia|].
  destruct (charAt_chars (random 7%nat)) as (c7 & E7 & G7); [apply Hr; lia|].
  exists [c0; c1; c2; c3; c4; c5; c6; c7].
  split; [|split; [reflexivity|]].
  - unfold Page.generateRoomId. cbn [seq fold_left].
    rewrite E0, E1, E2, E3, E4, E5, E6, E7. reflexivity.
  - intros i Hi.
    do 8 (destruct i as [|i]; [assumption|]). lia.
Qed.

(** X9.  Shape of a generated room identifier.  Whatever is drawn (the
    floor of a number from 0 up to, not including, the length of the
    alphabet is an index below 36), [generateRoomId] returns eight
    characters, each an upper-case letter or a digit of its alphabet. *)
Theorem generated_room_id_shape (random : nat -> nat) :
  (forall i, (i < 8)%nat -> (random i < 36)%nat) ->
  String.length (Page.generateRoomId random) = 8%nat
  /\ Forall (fun c => c ∈ list_ascii_of_string Page.chars)
       (list_ascii_of_string (Page.generateRoomId random)).
Proof.
  intros Hr. destruct (generateRoomId_chars random Hr) as (cs & -> & Hlen & Hget).
  split.
  - do 9 (destruct cs as [|? cs]; try discriminate). reflexivity.
  - rewrite list_ascii_of_string_of_list_ascii.
    apply Forall_lookup. intros i c Hc.
    assert (Hi : (i < 8)%nat) by (rewrite <- Hlen; eapply lookup_lt_Some; eauto).
    specialize (Hget i Hi). rewrite Hc, get_nth_error in Hget.
    apply list_elem_of_In. eapply nth_error_In. exact Hget.
Qed.

Lemma generated_room_id_shape_witness :
  String.length (Page.generateRoomId (fun i => (5 * i)%nat)) = 8%nat
  /\ Forall (fun c => c ∈ list_ascii_of_string Page.chars)
       (list_ascii_of_string (Page.generateRoomId (fun i => (5 * i)%nat))).
Proof.
  apply (generated_room_id_shape (fun i => (5 * i)%nat)).
  intros i Hi. lia.
Defined.

(** X10.  Different draws, different identifiers.  Two runs of
    [generateRoomId] return the same identifier only when they drew the
    same eight indices: the alphabet has no repeated character. *)
Theorem generated_room_id_injective (random random' : nat -> nat) :
  (forall i, (i < 8)%nat -> (random i < 36)%nat) ->
  (forall i, (i < 8)%nat -> (random' i < 36)%nat) ->
  Page.generateRoomId random = Page.generateRoomId random' ->
  forall i, (i < 8)%nat -> random i = random' i.
Proof.
  intros Hr Hr' Heq i Hi.
  destruct (generateRoomId_chars random Hr) as (cs & E & Hlen & Hget).
  destruct (generateRoomId_chars random' Hr') as (cs' & E' & Hlen' & Hget').
  assert (Hcs : cs = cs').
  { rewrite <- (list_ascii_of_string_of_list_ascii cs),
            <- (list_ascii_of_string_of_list_ascii cs').
    congruence. }
  subst cs'. specialize (Hget i Hi). specialize (Hget' i Hi).
  rewrite <- Hget', !get_nth_error in Hget.
  apply (proj1 (List.NoDup_nth_error _) (proj1 (NoDup_ListNoDup _) chars_distinct));
    [|exact Hget].
  specialize (Hr i Hi). exact Hr.
Qed.

Lemma generated_room_id_injective_witness : (5 * 3 = 3 * 5)%nat.
Proof.
  apply (generated_room_id_injective (fun i => (5 * i)%nat) (fun i => (i * 5)%nat));
    [intros i Hi; lia|intros i Hi; lia|reflexivity|lia].
Defined.

(** X11.  A generated room identifier is an ordinary title.  It is not
    empty, it is none of the names a plain object inherits, so the table
    has either an own entry for it or none, and its roster address reaches
    the roster route. *)
Theorem generated_room_id_is_plain_title (random : nat -> nat)
    (meetings : Meetings) :
  (forall i, (i < 8)%nat -> (random i < 36)%nat) ->
  let roomId := Page.generateRoomId random in
  truthy_string roomId = true
  /\ inherited roomId = false
  /\ getMeeting meetings roomId <> Inherited
  /\ Page.rosterRequest roomId = Some (GetRoster roomId).
Proof.
  intros Hr roomId. subst roomId.
  destruct (generateRoomId_chars random Hr) as (cs & -> & Hlen & Hget).
  destruct cs as [|c cs]; [discriminate|].
  specialize (Hget 0%nat ltac:(lia)). rewrite get_nth_error in Hget.
  apply nth_error_In in Hget. cbn [string_of_list_ascii].
  assert (Hplain : truthy_string (String c (string_of_list_ascii cs)) = true
                   /\ inherited (String c (string_of_list_ascii cs)) = false
                   /\ Page.rosterRequest (String c (string_of_list_ascii cs))
                      = Some (GetRoster (String c (string_of_list_ascii cs)))).
  { cbn in Hget.
    repeat (destruct Hget as [<-|Hget]; [repeat split|]).
    destruct Hget. }
  destruct Hplain as (Ht & Hi & Hroster).
  repeat split; try assumption.
  intros Hinh. apply getMeeting_Inherited in Hinh. congruence.
Qed.

Lemma generated_room_id_is_plain_title_witness :
  inherited (Page.generateRoomId (fun i => (5 * i)%nat)) = false
  /\ getMeeting room1 (Page.generateRoomId (fun i => (5 * i)%nat)) <> Inherited.
Proof.
  pose proof (generated_room_id_is_plain_title (fun i => (5 * i)%nat) room1
                ltac:(intros i Hi; cbv beta; lia)) as H.
  split; [exact (proj1 (proj2 H))|exact (proj1 (proj2 (proj2 H)))].
Defined.

(** ** The recording button against the server *)

Lemma pressed_in_sync env (P : Provider) (mode : option string)
    (meetings : Meetings) (st : Page.Ui) :
  mintsPipelineIds P ->
  Page.isRecording st = recording meetings (Page.roomId st) ->
  let after := pressed env P mode (meetings, st) in
  Page.isRecording (Page.toggled (snd after))
    = recording (fst after) (Page.roomId st)
  /\ Page.roomId (Page.toggled (snd after)) = Page.roomId st.
Proof.
  intros Hmint Hsync. unfold pressed, Page.toggleRequest. cbn [fst snd].
  destruct (Page.isRecording st) eqn:Hflag; cbn [route].
  - pose proof (serve_stop_cases meetings (Page.roomId st) P) as H. split_cases H;
      match goal with H : serve _ _ _ = _ |- _ => rewrite H end;
      cbn [said table response Page.toggleRecording Page.responseOk json error
           status Z.leb Z.compare Pos.compare Pos.compare_cont andb
           Page.toggled Page.setIsRecording Page.isRecording Page.roomId negb];
      rewrite ?Hflag; try (split; [congruence|reflexivity]).
    rewrite recording_insert, String.eqb_refl. split; reflexivity.
  - pose proof (serve_start_cases env meetings (Page.roomId st) mode P) as H.
    split_cases H;
      match goal with H : serve _ _ _ = _ |- _ => rewrite H end;
      cbn [said table response Page.toggleRecording Page.responseOk json error
           status Z.leb Z.compare Pos.compare Pos.compare_cont andb
           Page.toggled Page.setIsRecording Page.isRecording Page.roomId negb];
      rewrite ?Hflag; try (split; [congruence|reflexivity]).
    rewrite recording_insert, String.eqb_refl. cbn [withRecording pipelineId truthy].
    split; [|reflexivity].
    match goal with H : createMediaCapturePipeline _ _ = Resolved ?p |- _ =>
      pose proof (Hmint _ _ H) as Hid end.
    symmetry. apply negb_true_iff, String.eqb_neq. exact Hid.
Qed.

Lemma pressed_out_of_sync env (P : Provider) (mode : option string)
    (meetings : Meetings) (st : Page.Ui) :
  Page.isRecording st <> recording meetings (Page.roomId st) ->
  pressed env P mode (meetings, st)
  = (meetings,
     {| Page.toggled := st;
        Page.alerted := if Page.isRecording st then "Not recording"
                        else "Already recording" |}).
Proof.
  intros Hoff. unfold pressed, Page.toggleRequest. cbn [fst snd].
  destruct (Page.isRecording st) eqn:Hflag; cbn [route].
  - pose proof (serve_stop_cases meetings (Page.roomId st) P) as H. split_cases H;
      [|congruence..].
    match goal with H : serve _ _ _ = _ |- _ => rewrite H end. reflexivity.
  - pose proof (serve_start_cases env meetings (Page.roomId st) mode P) as H.
    split_cases H;
      try match goal with
          | H : meetings !! _ = Some _ |- _ =>
              rewrite (recording_own _ _ _ H) in Hoff
          | H : meetings !! _ = None |- _ =>
              rewrite (recording_none _ _ H) in Hoff
          end; try congruence.
    match goal with H : serve _ _ _ = _ |- _ => rewrite H end. reflexivity.
Qed.

(** With the reply delivered, [pressedOver] is [pressed]. *)
Lemma pressedOver_delivered env (P : Provider) (mode : option string)
    (lost : string) (w : Meetings * Page.Ui) :
  pressedOver env P mode true lost w = pressed env P mode w.
Proof. reflexivity. Qed.

(** A press whose reply is lost: the flag stays, and the page is still in
    step with the server exactly when the request was not carried out. *)
Lemma lost_reply_sync env (P : Provider) (mode : option string) (lost : string)
    (meetings : Meetings) (st : Page.Ui) :
  mintsPipelineIds P ->
  Page.isRecording st = recording meetings (Page.roomId st) ->
  let res := serve P (route env (Page.toggleRequest st mode)) meetings in
  pressedOver env P mode false lost (meetings, st)
  = (table res, {| Page.toggled := st; Page.alerted := "Recording action failed" |})
  /\ (Page.isRecording st = recording (table res) (Page.roomId st)
      <-> status (response res) <> 200).
Proof.
  intros Hmint Hsync res. split; [reflexivity|]. subst res.
  unfold Page.toggleRequest.
  destruct (Page.isRecording st) eqn:Hflag; cbn [route].
  - pose proof (serve_stop_cases meetings (Page.roomId st) P) as H. split_cases H;
      try congruence;
      match goal with H : serve _ _ _ = _ |- _ => rewrite H end;
      cbn [said table response json error status].
    + rewrite recording_insert, String.eqb_refl. cbn [withPipelineId pipelineId truthy].
      split; [discriminate|congruence].
    + split; [discriminate|congruence].
  - pose proof (serve_start_cases env meetings (Page.roomId st) mode P) as H.
    split_cases H;
      try match goal with
          | H : meetings !! _ = Some _ |- _ =>
              pose proof (recording_own _ _ _ H) as Hrec
          end; try congruence;
      match goal with H : serve _ _ _ = _ |- _ => rewrite H end;
      cbn [said table response json error status];
      try (split; [discriminate|congruence]).
    rewrite recording_insert, String.eqb_refl. cbn [withRecording pipelineId truthy].
    match goal with H : createMediaCapturePipeline _ _ = Resolved ?p |- _ =>
      pose proof (Hmint _ _ H) as Hid end.
    apply String.eqb_neq in Hid. rewrite Hid. cbn [negb].
    split; [discriminate|congruence].
Qed.

(** X12.  The recording flag follows the server while replies arrive.  When
    a page's recording flag agrees with the recording state the server
    holds for its room, it still agrees after any number of presses of its
    recording buttons, each served and its reply handled by the page before
    the next, whatever the provider answers (the identifiers it hands out
    are not empty).  A press whose reply is lost leaves the flag as it
    was, and page and server are still in step after it exactly when the
    server answered it other than 200: a start or stop that was carried
    out and whose reply is lost puts the page out of step. *)
Theorem recording_flag_follows_server env
    (presses : list (Provider * option string)) (w : Meetings * Page.Ui) :
  Forall (fun p => mintsPipelineIds (fst p)) presses ->
  inSync w ->
  let w' := fold_left (press env) presses w in
  inSync w'
  /\ forall P mode lost,
       mintsPipelineIds P ->
       let after := pressedOver env P mode false lost w' in
       Page.toggled (snd after) = snd w'
       /\ (inSync (fst after, Page.toggled (snd after))
           <-> status (response (serve P (route env (Page.toggleRequest (snd w') mode))
                                   (fst w'))) <> 200).
Proof.
  intros Hmint Hsync w'.
  assert (Hkept : inSync w').
  { subst w'. revert w Hsync.
    induction Hmint as [|[P mode] presses HP _ IH]; intros [meetings st] Hsync;
      [exact Hsync|].
    cbn [fold_left]. apply IH. unfold inSync, press in *. cbn [fst snd] in *.
    destruct (pressed_in_sync env P mode meetings st HP Hsync) as [Hflag Hroom].
    rewrite Hroom. exact Hflag. }
  split; [exact Hkept|]. intros P mode lost HP after. subst after.
  destruct w' as [meetings st]. unfold inSync in Hkept. cbn [fst snd] in *.
  destruct (lost_reply_sync env P mode lost meetings st HP Hkept) as [-> Hiff].
  cbn [fst snd Page.toggled]. split; [reflexivity|exact Hiff].
Qed.

Lemma recording_flag_follows_server_witness :
  inSync (fold_left (press None)
            [(chime "1", Some "grid"); (outage, None); (chime "2", None);
             (chime "3", Some "raw")]
            (room1, Page.initial "Alice" "ROOM1" "9762"))
  /\ ~ inSync
        (fst (pressedOver None (chime "1") (Some "grid") false "Failed to fetch"
                (room1, Page.initial "Alice" "ROOM1" "9762")),
         Page.toggled
           (snd (pressedOver None (chime "1") (Some "grid") false "Failed to fetch"
                   (room1, Page.initial "Alice" "ROOM1" "9762")))).
Proof.
  split.
  - refine (proj1 (recording_flag_follows_server None
                     [(chime "1", Some "grid"); (outage, None); (chime "2", None);
                      (chime "3", Some "raw")]
                     (room1, Page.initial "Alice" "ROOM1" "9762") _ _)).
    + repeat constructor; intros x p; cbn; intros [= <-]; discriminate.
    + reflexivity.
  - intros Hin.
    refine (proj1 (proj2 (proj2 (recording_flag_follows_server None []
                     (room1, Page.initial "Alice" "ROOM1" "9762") _ _)
                     (chime "1") (Some "grid") "Failed to fetch" _)) Hin _).
    + constructor.
    + reflexivity.
    + intros x p [= <-]. discriminate.
    + reflexivity.
Defined.

(** X13.  A page out of step with the server is stuck.  When a page's
    recording flag disagrees with the recording state the server holds for
    its room, a press of a recording button is refused ("Already
    recording" when the flag is off, "Not recording" when it is on) and
    changes neither the server nor the flag, so no number of presses brings
    the page back in step or stops the recording. *)
Theorem out_of_step_page_is_stuck env
    (presses : list (Provider * option string)) (w : Meetings * Page.Ui) :
  ~ inSync w ->
  fold_left (press env) presses w = w
  /\ forall P mode,
       Page.alerted (snd (pressed env P mode w))
       = if Page.isRecording (snd w) then "Not recording" else "Already recording".
Proof.
  intros Hoff. destruct w as [meetings st]. unfold inSync in Hoff. cbn [fst snd] in *.
  split.
  - induction presses as [|[P mode] presses IH]; [reflexivity|].
    cbn [fold_left]. unfold press at 2. cbn [fst snd].
    rewrite (pressed_out_of_sync env P mode meetings st Hoff). exact IH.
  - intros P mode. rewrite (pressed_out_of_sync env P mode meetings st Hoff).
    reflexivity.
Qed.

Lemma out_of_step_page_is_stuck_witness :
  fold_left (press None) [(chime "1", None); (chime "2", Some "grid")]
    (room1Recording, Page.initial "Bob" "ROOM1" "9762")
  = (room1Recording, Page.initial "Bob" "ROOM1" "9762").
Proof.
  apply (out_of_step_page_is_stuck None).
  unfold inSync. cbn. discriminate.
Defined.

Lemma join_keeps_recording (meetings : Meetings) t name (P : Provider) title :
  recording (table (serve P (api_join t name) meetings)) title
  = recording meetings title.
Proof.
  pose proof (serve_join_cases meetings t name P) as H. split_cases H;
    match goal with H : serve _ _ _ = _ |- _ => rewrite H end;
    unfold joined; cbn [said table]; try reflexivity.
  - eapply recording_kept; [eassumption|reflexivity].
  - rewrite (recording_kept _ t (newMeetingData _))
      by (apply lookup_insert_eq || reflexivity).
    apply recording_fresh. assumption.
  - apply recording_fresh. assumption.
Qed.

(** Joining touches neither the recording state of the server nor the
    recording flag and the room of the page. *)
Lemma submit_keeps_recording env (P : Provider) (devices : Outcome unit)
    (meetings : Meetings) (st : Page.Ui) title :
  let back := submit env P devices (meetings, st) in
  recording (fst (fst back)) title = recording meetings title
  /\ Page.isRecording (snd (fst back)) = Page.isRecording st
  /\ Page.roomId (snd (fst back)) = Page.roomId st.
Proof.
  unfold submit, Page.joinMeeting, Page.joinRequest. cbn [fst snd route].
  destruct (String.eqb (Page.password st) "9762"); cbn [negb];
    [|cbn; auto].
  pose proof (join_keeps_recording meetings (Page.roomId st) (Page.name st) P title)
    as Hrec.
  destruct (serve P (api_join (Page.roomId st) (Page.name st)) meetings)
    as [m' [code data] log].
  cbn [table response] in *.
  destruct (Page.responseOk _); cbn [Page.scheduled Page.page Page.alerts];
    [|cbn; auto].
  unfold Page.initializeChime.
  destruct data, devices; cbn; auto.
Qed.

(** X14.  A recording outlives the call of the page that started it.
    [leaveCall] tells the server nothing and clears the recording flag: the
    recording goes on, and after the page has joined the room again its
    flag is off while the server records, so no press of its recording
    buttons stops the recording or changes anything. *)
Theorem recording_outlives_the_call env (P : Provider) (devices : Outcome unit)
    (presses : list (Provider * option string)) (w : Meetings * Page.Ui) :
  recording (fst w) (Page.roomId (snd w)) = true ->
  let back := fst (submit env P devices (left w)) in
  recording (fst (left w)) (Page.roomId (snd w)) = true
  /\ recording (fst back) (Page.roomId (snd w)) = true
  /\ Page.isRecording (snd back) = false
  /\ fold_left (press env) presses back = back.
Proof.
  intros Hrec back. destruct w as [meetings st]. subst back.
  unfold left. cbn [fst snd] in *.
  destruct (submit_keeps_recording env P devices meetings (Page.leaveCall st)
              (Page.roomId st)) as (Htable & Hflag & Hroom).
  set (back := fst (submit env P devices (meetings, Page.leaveCall st))) in *.
  change (Page.isRecording (Page.leaveCall st)) with false in Hflag.
  change (Page.roomId (Page.leaveCall st)) with (Page.roomId st) in Hroom.
  split; [exact Hrec|]. split; [congruence|]. split; [exact Hflag|].
  assert (Hoff : Page.isRecording (snd back)
                 <> recording (fst back) (Page.roomId (snd back))).
  { rewrite Hflag, Hroom, Htable, Hrec. discriminate. }
  destruct back as [m' st']. cbn [fst snd] in *.
  induction presses as [|[P' mode] presses IH]; [reflexivity|].
  cbn [fold_left]. unfold press at 2. cbn [fst snd].
  rewrite (pressed_out_of_sync env P' mode m' st' Hoff). exact IH.
Qed.

Lemma recording_outlives_the_call_witness :
  let w := fold_left (press None) [(chime "1", Some "grid")]
             (room1WithAlice,
              Page.setInCall true (Page.initial "Alice" "ROOM1" "9762")) in
  let back := fst (submit None (chime "2") (Resolved tt) (left w)) in
  recording (fst back) "ROOM1" = true
  /\ Page.isRecording (snd back) = false
  /\ fold_left (press None) [(chime "3", None); (chime "4", Some "raw")] back = back.
Proof.
  cbv zeta.
  pose proof (recording_outlives_the_call None (chime "2") (Resolved tt)
                [(chime "3", None); (chime "4", Some "raw")]
                (fold_left (press None) [(chime "1", Some "grid")]
                   (room1WithAlice,
                    Page.setInCall true (Page.initial "Alice" "ROOM1" "9762")))
                eq_refl) as H.
  exact (proj2 H).
Defined.

(** ** Joining, end to end *)

(** A response that carries a [JoinInfo] is a 200. *)
Lemma join_body_response (meetings : Meetings) title name (P : Provider) m a roster :
  body (response (serve P (api_join title name) meetings)) = JoinBody m a roster ->
  response (serve P (api_join title name) meetings) = json (JoinBody m a roster).
Proof.
  pose proof (serve_join_cases meetings title name P) as H. split_cases H;
    match goal with H : serve _ _ _ = _ |- _ => rewrite H end;
    cbn [said response json error body]; try discriminate; intros ->; reflexivity.
Qed.

(** The session and the page after a join that the server answered with a
    [JoinInfo]. *)
Lemma submit_joined env (P : Provider) (devices : Outcome unit)
    (meetings : Meetings) (st : Page.Ui) m a roster :
  Page.password st = "9762" ->
  body (response (serve P (api_join (Page.roomId st) (Page.name st)) meetings))
    = JoinBody m a roster ->
  let session := {| Page.joinInfo := (m, a); Page.heldRoomId := Page.roomId st;
                    Page.heldRoster := Page.attendeeRoster st |} in
  let entered :=
    Page.setSessionRef (Some session)
      (Page.setInCall true
         (Page.setAttendeeRoster roster (Page.setIsLoading true st))) in
  submit env P devices (meetings, st)
  = (table (serve P (api_join (Page.roomId st) (Page.name st)) meetings),
     match devices with
     | Resolved _ => Page.setIsLoading false entered
     | Rejected _ => Page.setIsLoading false (Page.setInCall false entered)
     end,
     match devices with
     | Resolved _ => []
     | Rejected message => [Page.cameraMicError message]
     end).
Proof.
  intros Hpw Hbody. apply join_body_response in Hbody.
  unfold submit, Page.joinMeeting, Page.joinRequest. cbn [fst snd route].
  rewrite Hpw, Hbody. cbn. destruct devices; reflexivity.
Qed.

(** X15.  On a first join, everyone who leaves is "Someone".  The presence
    handler reads the names of leavers from the roster of the render in
    which the form was submitted, not from the roster the join stored: when
    that render's roster is empty, as on a freshly loaded page, the page
    holds the server's roster with the names after the join, and yet every
    leave event of the session is announced as "Someone left". *)
Theorem first_join_announces_leavers_as_someone env (P : Provider)
    (devices : Outcome unit) (meetings : Meetings) (st : Page.Ui)
    (m : Meeting) (a : Attendee) (roster : Roster) :
  Page.password st = "9762" ->
  Page.attendeeRoster st = ∅ ->
  body (response (serve P (api_join (Page.roomId st) (Page.name st)) meetings))
    = JoinBody m a roster ->
  let st' := snd (fst (submit env P devices (meetings, st))) in
  Page.attendeeRoster st' = roster
  /\ roster !! AttendeeId a = Some (Page.name st)
  /\ exists s,
       Page.sessionRef st' = Some s
       /\ Page.joinInfo s = (m, a)
       /\ forall attendeeId fetched prev,
            App.shown (Page.presence s attendeeId false fetched prev)
            = [("Someone left", "leave")].
Proof.
  intros Hpw Hempty Hbody st'. subst st'.
  rewrite (submit_joined env P devices meetings st m a roster Hpw Hbody).
  cbn [fst snd].
  destruct (join_then_roster_keeps meetings (Page.roomId st) (Page.name st) P
              m a roster Hbody) as [Hname _].
  split; [destruct devices; reflexivity|]. split; [exact Hname|].
  eexists. split; [destruct devices; reflexivity|]. split; [reflexivity|].
  intros attendeeId fetched prev.
  unfold Page.presence, App.attendeeIdPresenceHandler.
  cbn [Page.heldRoster App.shown]. rewrite Hempty, lookup_empty. reflexivity.
Qed.

Lemma first_join_announces_leavers_as_someone_witness :
  let st' := snd (fst (submit None (chime "2") (Resolved tt)
                         (room1WithAlice, Page.initial "Bob" "ROOM1" "9762"))) in
  Page.attendeeRoster st' = {[ "att-1" := "Alice"; "att-2" := "Bob" ]}
  /\ exists s,
       Page.sessionRef st' = Some s
       /\ Page.joinInfo s = (sampleMeeting "1", sampleAttendee "2")
       /\ forall attendeeId fetched prev,
            App.shown (Page.presence s attendeeId false fetched prev)
            = [("Someone left", "leave")].
Proof.
  cbv zeta.
  pose proof (first_join_announces_leavers_as_someone None (chime "2")
                (Resolved tt) room1WithAlice (Page.initial "Bob" "ROOM1" "9762")
                (sampleMeeting "1") (sampleAttendee "2")
                {[ "att-1" := "Alice"; "att-2" := "Bob" ]}
                eq_refl eq_refl eq_refl) as H.
  split; [exact (proj1 H)|exact (proj2 (proj2 H))].
Defined.

(** X16.  A join, end to end.  When the server answers a join with its
    [JoinInfo], the page holds the very roster the server stores for the
    room, with the new attendee under the page's name, and is no longer
    loading.  It is in the call exactly when its device set-up succeeded,
    and it shows an alert exactly when that failed: then the attendee
    stays on the server's roster although the page is not in the call. *)
Theorem join_end_to_end env (P : Provider) (devices : Outcome unit)
    (meetings : Meetings) (st : Page.Ui)
    (m : Meeting) (a : Attendee) (roster : Roster) :
  Page.password st = "9762" ->
  body (response (serve P (api_join (Page.roomId st) (Page.name st)) meetings))
    = JoinBody m a roster ->
  let after := submit env P devices (meetings, st) in
  let st' := snd (fst after) in
  rosterOf (fst (fst after)) (Page.roomId st) = roster
  /\ Page.attendeeRoster st' = roster
  /\ roster !! AttendeeId a = Some (Page.name st)
  /\ Page.isLoading st' = false
  /\ Page.inCall st' = resolved devices
  /\ (snd after = [] <-> resolved devices = true).
Proof.
  intros Hpw Hbody after st'. subst st' after.
  rewrite (submit_joined env P devices meetings st m a roster Hpw Hbody).
  cbn [fst snd].
  destruct (join_then_roster_keeps meetings (Page.roomId st) (Page.name st) P
              m a roster Hbody) as [Hname Hroster].
  split; [exact Hroster|].
  destruct devices; cbn; repeat split; auto; discriminate.
Qed.

Lemma join_end_to_end_witness :
  let after := submit None (chime "2") (Rejected "Permission denied")
                 (room1WithAlice, Page.initial "Bob" "ROOM1" "9762") in
  rosterOf (fst (fst after)) "ROOM1" = {[ "att-1" := "Alice"; "att-2" := "Bob" ]}
  /\ Page.inCall (snd (fst after)) = false.
Proof.
  cbv zeta.
  pose proof (join_end_to_end None (chime "2") (Rejected "Permission denied")
                room1WithAlice (Page.initial "Bob" "ROOM1" "9762")
                (sampleMeeting "1") (sampleAttendee "2")
                {[ "att-1" := "Alice"; "att-2" := "Bob" ]} eq_refl eq_refl) as H.
  split; [exact (proj1 H)|exact (proj1 (proj2 (proj2 (proj2 (proj2 H)))))].
Defined.

(** ** The remote tile and its label *)

(** X17.  Removing any tile clears the remote name.  Once a remote tile is
    bound, the label under the remote video names its attendee; when any
    other tile is removed (the local one, say), the remote tile is still
    bound to the remote video and yet the label falls back to "Waiting for
    participant...". *)
Theorem removing_any_tile_clears_remote_name (s : Page.Stage)
    (remote : Page.VideoTileState) (attendeeId : string) (other : Z) :
  Page.boundAttendeeId remote = Some attendeeId ->
  attendeeId <> "" ->
  Page.localTile remote = false ->
  other <> Page.tileId remote ->
  let shown := Page.videoTileDidUpdate true true remote s in
  let after := Page.videoTileDidRemove other shown in
  Page.remoteLabel (Page.ui shown)
    = Page.orElse (Page.attendeeRoster (Page.ui s) !! attendeeId)
        "Remote Participant"
  /\ Page.bound after !! Page.tileId remote = Some Page.RemoteVideo
  /\ Page.remoteLabel (Page.ui after) = "Waiting for participant...".
Proof.
  intros Hbound Hid Hremote Hother shown after. subst after shown.
  unfold Page.videoTileDidUpdate, Page.videoTileDidRemove, Page.remoteLabel.
  rewrite Hbound, Hremote.
  assert (Ht : truthy_string attendeeId = true)
    by (apply negb_true_iff, String.eqb_neq; exact Hid).
  rewrite Ht. cbn. rewrite Ht. split; [reflexivity|]. split; [|reflexivity].
  rewrite lookup_delete_ne by exact Hother. apply lookup_insert_eq.
Qed.

Lemma removing_any_tile_clears_remote_name_witness :
  Page.remoteLabel (Page.ui (Page.videoTileDidUpdate true true bobsTile stageOfThree))
    = "Bob"
  /\ Page.bound (Page.videoTileDidRemove 1
                   (Page.videoTileDidUpdate true true bobsTile stageOfThree))
       !! 2 = Some Page.RemoteVideo
  /\ Page.remoteLabel
       (Page.ui (Page.videoTileDidRemove 1
                   (Page.videoTileDidUpdate true true bobsTile stageOfThree)))
     = "Waiting for participant...".
Proof.
  apply (removing_any_tile_clears_remote_name stageOfThree bobsTile "att-bob" 1);
    [reflexivity|discriminate|reflexivity|discriminate].
Defined.

(** ** The notification queue over time *)

Lemma ticks_from (events : list Page.Tick) :
  forall (queued : list (Z * (string * string))) (st : App.Toasts),
    App.notifications st = map App.entryOf queued ->
    App.timeouts st = map App.timeoutOf queued ->
    NoDup (map fst (queued ++ flat_map Page.pushed events)%list) ->
    let k := Page.expired events (length queued) in
    let pushes := (queued ++ flat_map Page.pushed events)%list in
    App.notifications (fold_left Page.tick events st) = map App.entryOf (drop k pushes)
    /\ App.timeouts (fold_left Page.tick events st) = map App.timeoutOf (drop k pushes).
Proof.
  induction events as [|e events IH]; intros queued st Hn Ht Hnd; cbv zeta.
  - cbn [fold_left flat_map Page.expired drop]. rewrite app_nil_r. auto.
  - cbn [fold_left flat_map]. destruct e as [now message type|];
      cbn [Page.tick Page.pushed Page.expired app] in *.
    + specialize (IH (queued ++ [(now, (message, type))])%list
                     (App.showNotification now message type st)).
      cbv zeta in IH. rewrite <- app_assoc, length_app in IH. cbn [app length] in IH.
      replace (length queued + 1)%nat with (S (length queued)) in IH by lia.
      apply IH; [| |exact Hnd];
        cbn [App.showNotification App.notifications App.timeouts];
        rewrite ?Hn, ?Ht, map_app; reflexivity.
    + destruct queued as [|q queued].
      * assert (Hidle : App.fire st = st)
          by (unfold App.fire; rewrite Ht; reflexivity).
        rewrite Hidle. exact (IH [] st Hn Ht Hnd).
      * cbn [length app drop] in *.
        apply (IH queued (App.fire st)).
        -- unfold App.fire. rewrite Ht, Hn. cbn [map App.timeoutOf App.target
             App.notifications].
           apply (dismiss_one [] (map App.entryOf queued) (App.entryOf q)).
           cbn [app]. change (App.entryOf q :: map App.entryOf queued)
             with (map App.entryOf (q :: queued)).
           rewrite entryOf_ids. cbn [map] in Hnd |- *.
           apply NoDup_cons in Hnd as [Hq Hrest]. rewrite map_app in Hq, Hrest.
           apply NoDup_cons. split.
           ++ intros Hin. apply Hq. apply elem_of_app. left. exact Hin.
           ++ apply NoDup_app in Hrest as (Hrest & _ & _). exact Hrest.
        -- unfold App.fire. rewrite Ht. reflexivity.
        -- cbn [map] in Hnd. apply NoDup_cons in Hnd as [_ Hrest]. exact Hrest.
Qed.

(** X18.  Notifications expire oldest first.  When no two notifications
    are pushed at the same clock reading, then at every moment, however
    pushes and expiring timeouts interleave, the notifications on screen
    are exactly the pushes that have not expired yet, in the order pushed,
    and each of them has its own timeout pending. *)
Theorem toasts_expire_oldest_first (events : list Page.Tick) :
  NoDup (map fst (flat_map Page.pushed events)) ->
  let st := fold_left Page.tick events App.noToasts in
  let waiting := drop (Page.expired events 0) (flat_map Page.pushed events) in
  App.notifications st = map App.entryOf waiting
  /\ App.timeouts st = map App.timeoutOf waiting.
Proof.
  intros Hnd. exact (ticks_from events [] App.noToasts eq_refl eq_refl Hnd).
Qed.

Lemma toasts_expire_oldest_first_witness :
  map App.message (App.notifications (fold_left Page.tick threeToasts App.noToasts))
  = ["Bob joined"; "Bob left"].
Proof.
  rewrite (proj1 (toasts_expire_oldest_first threeToasts
                    ltac:(apply (bool_decide_unpack _); vm_compute; exact I))).
  reflexivity.
Defined.

(** ** Leaving and the next roster fetch *)

(** X19.  A leaver comes back with the next fetch.  A leave event takes the
    attendee off the page's roster, but serving requests one after another
    (a sequential history) the server takes nobody off its own: whatever
    requests it serves that way in between, the roster the page fetches at
    the next join event lists the leaver again, and the page's roster with
    it. *)
Theorem leaver_returns_with_next_fetch env (calls : list Call)
    (meetings : Meetings) (s : Page.Session) (P : Provider)
    (leaver joiner : string) (any : App.Fetched) (prev : Roster) :
  is_Some (rosterOf meetings (Page.heldRoomId s) !! leaver) ->
  Page.rosterRequest (Page.heldRoomId s) = Some (GetRoster (Page.heldRoomId s)) ->
  let afterLeave := App.roster (Page.presence s leaver false any prev) in
  let later := fst (serveAll env calls meetings) in
  let afterJoin :=
    App.roster (Page.presence s joiner true
                  (fetched P later (Page.heldRoomId s)) afterLeave) in
  afterLeave !! leaver = None
  /\ afterJoin = rosterOf later (Page.heldRoomId s)
  /\ is_Some (afterJoin !! leaver).
Proof.
  intros Hon Hreq afterLeave later afterJoin.
  assert (Hleft : afterLeave !! leaver = None) by apply lookup_delete_eq.
  split; [exact Hleft|].
  assert (Hstill : is_Some (rosterOf later (Page.heldRoomId s) !! leaver)).
  { unfold rosterOf in *.
    destruct (meetings !! Page.heldRoomId s) as [d|] eqn:Hd;
      [|rewrite lookup_empty in Hon; destruct Hon; discriminate].
    destruct (serveAll_lasting env calls meetings _ d Hd) as (d' & Hd' & [_ Hkeep]).
    fold later in Hd'. rewrite Hd'. apply Hkeep, Hon. }
  assert (Hjoin : afterJoin = rosterOf later (Page.heldRoomId s)).
  { subst afterJoin. unfold fetched, Page.presence. rewrite Hreq. cbn [route].
    unfold rosterOf in *.
    destruct (later !! Page.heldRoomId s) as [d'|] eqn:Hd';
      [|rewrite lookup_empty in Hstill; destruct Hstill; discriminate].
    unfold serve, api_roster. rewrite (getMeeting_own _ _ _ Hd'). reflexivity. }
  split; [exact Hjoin|]. rewrite Hjoin. exact Hstill.
Qed.

Lemma leaver_returns_with_next_fetch_witness :
  let afterLeave :=
    App.roster (Page.presence bobsSession "att-1" false App.FetchFailed
                  {[ "att-1" := "Alice"; "att-2" := "Bob" ]}) in
  let later := fst (serveAll None [(PostJoin "ROOM1" "Carol", chime "3")]
                      room1WithAlice) in
  afterLeave !! "att-1" = None
  /\ is_Some (App.roster (Page.presence bobsSession "att-3" true
                            (fetched outage later "ROOM1") afterLeave)
              !! "att-1").
Proof.
  cbv zeta.
  pose proof (leaver_returns_with_next_fetch None
                [(PostJoin "ROOM1" "Carol", chime "3")] room1WithAlice bobsSession
                outage "att-1" "att-3" App.FetchFailed
                {[ "att-1" := "Alice"; "att-2" := "Bob" ]}
                ltac:(exists "Alice"; reflexivity) eq_refl) as H.
  split; [exact (proj1 H)|exact (proj2 (proj2 H))].
Defined.

(** ** Rosters and entries over whole runs *)

(** X20.  The roster lists exactly the joiners.  After a sequential history
    from the empty table in which the provider handed out pairwise distinct
    attendee identifiers for a title, the roster of the title has one entry
    per successful join to it, keyed by the attendee identifier and holding
    the name given in the request. *)
Theorem roster_lists_exactly_the_joiners env (calls : list Call) (title : string) :
  let results := snd (serveAll env calls ∅) in
  let roster := rosterOf (fst (serveAll env calls ∅)) title in
  NoDup (fst <$> entrants title calls results) ->
  size roster = length (entrants title calls results)
  /\ forall e, e ∈ entrants title calls results -> roster !! fst e = Some (snd e).
Proof. exact (joins_fill_roster env calls title). Qed.

Lemma roster_lists_exactly_the_joiners_witness :
  size (rosterOf (fst (serveAll None room1Scenario ∅)) "ROOM1") = 2%nat
  /\ forall e,
       e ∈ [("att-1", "Alice"); ("att-2", "Bob")] ->
       rosterOf (fst (serveAll None room1Scenario ∅)) "ROOM1" !! fst e
       = Some (snd e).
Proof.
  apply (roster_lists_exactly_the_joiners None room1Scenario "ROOM1").
  apply (bool_decide_unpack _). vm_compute. exact I.
Defined.

(** X21.  Entries survive every run.  However requests and provider answers
    interleave, a title that has an entry in the table at some point of a
    run has one at every later point, and its name is none that the table
    object inherits: no handler ever deletes an entry, and none writes one
    under an inherited name. *)
Theorem entries_survive_every_run env (events later : list Event)
    (title : string) :
  is_Some (store (schedule env events) !! title) ->
  is_Some (store (schedule env (events ++ later)) !! title)
  /\ inherited title = false.
Proof.
  intros Hown. split.
  - exact (schedule_keeps_entries env events later title Hown).
  - exact (schedule_wellKeyed env events title Hown).
Qed.

Lemma entries_survive_every_run_witness :
  is_Some (store (schedule None
                    ([Arrives (PostCreate "ROOM1"); Settles 0 (chime "1")]
                     ++ creationRace)) !! "ROOM1")
  /\ inherited "ROOM1" = false.
Proof.
  apply (entries_survive_every_run None
           [Arrives (PostCreate "ROOM1"); Settles 0 (chime "1")] creationRace
           "ROOM1").
  exists (newMeetingData (sampleMeeting "1")). reflexivity.
Defined.

(** X22.  Joining under an ordinary title succeeds.  For a title that names
    no inherited property and a provider that carries out what it is asked,
    a join is answered 200 whether or not the meeting existed: the response
    carries the roster of the title with the new attendee added under the
    name given, the table stores that roster, and exactly one attendee is
    minted. *)
Theorem join_succeeds_under_ordinary_title (meetings : Meetings)
    (title name : string) (P : Provider) :
  inherited title = false ->
  (forall x, resolved (createMeeting P x) = true) ->
  (forall x, resolved (createAttendee P x) = true) ->
  let res := serve P (api_join title name) meetings in
  exists m a,
    response res =
      json (JoinBody m a (<[AttendeeId a := name]> (rosterOf meetings title)))
    /\ table res !! title =
         Some (withAttendees
                 (default (newMeetingData m) (meetings !! title))
                 (<[AttendeeId a := name]> (rosterOf meetings title)))
    /\ List.filter (fun x => match sent x with
                             | CreateAttendeeCommand _ => true
                             | _ => false
                             end) (exchanges res)
       = [did (CreateAttendeeCommand (MeetingId m)) true].
Proof. exact (join_creates_or_joins meetings title name P). Qed.

Lemma join_succeeds_under_ordinary_title_witness :
  exists m a,
    response (serve (chime "2") (api_join "ROOM2" "Bob") room1) =
      json (JoinBody m a (<[AttendeeId a := "Bob"]> (rosterOf room1 "ROOM2")))
    /\ table (serve (chime "2") (api_join "ROOM2" "Bob") room1) !! "ROOM2" =
         Some (withAttendees
                 (default (newMeetingData m) (room1 !! "ROOM2"))
                 (<[AttendeeId a := "Bob"]> (rosterOf room1 "ROOM2")))
    /\ List.filter (fun x => match sent x with
                             | CreateAttendeeCommand _ => true
                             | _ => false
                             end)
         (exchanges (serve (chime "2") (api_join "ROOM2" "Bob") room1))
       = [did (CreateAttendeeCommand (MeetingId m)) true].
Proof.
  apply (join_succeeds_under_ordinary_title room1 "ROOM2" "Bob" (chime "2"));
    [reflexivity|intros x; reflexivity|intros x; reflexivity].
Defined.
